(** * UnorderedMap.h: a hash map over singly-linked storage

    The class keeps every (key, value) pair in one [std::forward_list]
    ([elements_]) and indexes it with a vector of forward lists of
    iterators ([table_]): the entry stored for an element is the iterator
    to the position *before* that element, so that [erase_after] can unlink
    it.  This file embeds the member functions of the class as functions on
    an explicit object state and proves the properties the documentation
    states about them.

    Modelling conventions.
    - A node of [elements_] is named by its address; an iterator into
      [elements_] is [before_begin], a node address, or [end].  The list is
      the sequence of its nodes, front first.
    - An iterator into one bucket list is only ever held inside one member
      function; it is the number of [++] steps from that list's
      [before_begin()].
    - Undefined behaviour (dereferencing [end()], indexing the vector out of
      range, [%] by zero) is the result [None].
    - [size_t] quantities are natural numbers: they count live nodes and
      buckets, which stay far below [SIZE_MAX] on any real machine.
    - [operator==] on keys is equality, and [Hash] is a function of the
      key. *)

From stdpp Require Import base decidable option list sets.

(** ** Iterators of [std::forward_list<Element>] *)

Definition addr := nat.

Inductive iterator :=
  | before_begin
  | at_node (a : addr)
  | end_it.

#[global] Instance iterator_eq_dec : EqDecision iterator.
Proof. solve_decision. Defined.

(** The one exception the class throws ([at] on a missing key). *)
Inductive exn := out_of_range.

(** [for (x : l) s = body(s, x)], stopping at the first undefined step. *)
Fixpoint for_each {S A : Type} (body : S → A → option S) (l : list A) (s : S)
  : option S :=
  match l with
  | [] => Some s
  | x :: r => s' ← body s x; for_each body r s'
  end.

(** [a % b] on [size_t]; undefined for [b = 0]. *)
Definition umod (a b : nat) : option nat :=
  if decide (b = 0) then None else Some (a mod b).

(** [v.resize(n)] on a vector of lists: truncate or pad with empty lists. *)
Definition resize {A : Type} (n : nat) (v : list (list A)) : list (list A) :=
  take n v ++ replicate (n - length v) [].

(** ** std::forward_list<Element>, as the sequence of its nodes *)
Module fl.
Section fl.
Context {E : Type}.
Abbreviation chain := (list (addr * E)).

Definition begin (l : chain) : iterator :=
  match l with
  | [] => end_it
  | (a, _) :: _ => at_node a
  end.

Fixpoint next_after (a : addr) (l : chain) : option iterator :=
  match l with
  | [] => None
  | (b, _) :: r => if decide (a = b) then Some (begin r) else next_after a r
  end.

(** [std::next(it)]; undefined on [end()] and on a node that is not in
    the list. *)
Definition next (l : chain) (it : iterator) : option iterator :=
  match it with
  | before_begin => Some (begin l)
  | at_node a => next_after a l
  | end_it => None
  end.

Fixpoint deref_node (a : addr) (l : chain) : option E :=
  match l with
  | [] => None
  | (b, e) :: r => if decide (a = b) then Some e else deref_node a r
  end.

(** [*it]; defined on the nodes of the list only. *)
Definition deref (l : chain) (it : iterator) : option E :=
  match it with
  | at_node a => deref_node a l
  | _ => None
  end.

Definition push_front (a : addr) (e : E) (l : chain) : chain := (a, e) :: l.

Fixpoint erase_after_node (a : addr) (l : chain) : option chain :=
  match l with
  | [] => None
  | (b, e) :: r =>
      if decide (a = b) then
        match r with
        | [] => None
        | _ :: r' => Some ((b, e) :: r')
        end
      else cons (b, e) <$> erase_after_node a r
  end.

(** [l.erase_after(it)]; undefined when nothing follows [it]. *)
Definition erase_after (l : chain) (it : iterator) : option chain :=
  match it with
  | before_begin => match l with [] => None | _ :: r => Some r end
  | at_node a => erase_after_node a l
  | end_it => None
  end.

(** The elements visited by [for (it = begin(); it != end(); ++it)], with
    the number of steps bounded by [fuel]. *)
Fixpoint walk (fuel : nat) (l : chain) (it : iterator) : option (list E) :=
  match it with
  | end_it => Some []
  | _ =>
      match fuel with
      | 0 => None
      | S fuel' =>
          e ← deref l it; it' ← next l it;
          cons e <$> walk fuel' l it'
      end
  end.

(** The pairs (position, node that follows it), front first: the iterator
    one has to hold to reach each node by one [++]. *)
Fixpoint links (p : iterator) (l : chain) : list (iterator * (addr * E)) :=
  match l with
  | [] => []
  | n :: r => (p, n) :: links (at_node n.1) r
  end.

(** The position reached from [p] after walking over all of [l]. *)
Definition last_pos (p : iterator) (l : chain) : iterator :=
  foldl (λ _ n, at_node n.1) p l.
End fl.
End fl.

(** A node of [elements_]: its address and the pair it holds. *)
Abbreviation node K V := (addr * (K * V))%type.

(** ** The class *)
Section UnorderedMap.
Context {KeyType ValueType : Type} `{EqDecision KeyType}.
(** [ValueType()] *)
Context (ValueType_default : ValueType).

(** typedef std::pair<const KeyType, ValueType> Element *)
Abbreviation Element := (KeyType * ValueType)%type.

(** The data members, and the allocator of the list nodes.  The allocator
    hands out increasing addresses; what the proofs use of it is that a new
    node's address differs from the addresses of the nodes in the list. *)
Record UnorderedMap := MkMap {
  hash_ : KeyType → nat;
  elements_ : list (addr * Element);
  table_ : list (list iterator);
  size_ : nat;
  heap_ : addr;
}.

Definition set_table (m : UnorderedMap) (t : list (list iterator)) :=
  MkMap (hash_ m) (elements_ m) t (size_ m) (heap_ m).

(** [elements_.push_front(p)]: a new node, at a new address. *)
Definition elements_push_front (m : UnorderedMap) (p : Element) :=
  MkMap (hash_ m) (fl.push_front (heap_ m) p (elements_ m)) (table_ m)
        (size_ m) (S (heap_ m)).

(** The scan of [Find_Previous_In_Bucket] down one bucket list: the number
    of entries stepped over. *)
Fixpoint scan_bucket (l : list (addr * Element)) (key : KeyType)
    (bucket : list iterator) : option nat :=
  match bucket with
  | [] => Some 0
  | anchor :: rest =>
      jt ← fl.next l anchor;
      e ← fl.deref l jt;
      if decide (e.1 = key) then Some 0 else S <$> scan_bucket l key rest
  end.

Definition Find_Previous_In_Bucket (m : UnorderedMap) (bucketIndex : nat)
    (key : KeyType) : option nat :=
  bucket ← table_ m !! bucketIndex;
  scan_bucket (elements_ m) key bucket.

(** UnorderedMap(Hash h) *)
Definition new (h : KeyType → nat) : UnorderedMap :=
  MkMap h [] (resize 1 []) 0 0.

Definition size (m : UnorderedMap) : nat := size_ m.

Definition empty (m : UnorderedMap) : bool :=
  bool_decide (elements_ m = []).

Definition begin (m : UnorderedMap) : iterator := fl.begin (elements_ m).

Definition end_ (m : UnorderedMap) : iterator := end_it.

Definition find (m : UnorderedMap) (key : KeyType) : option iterator :=
  bucketIndex ← umod (hash_ m key) (length (table_ m));
  it ← Find_Previous_In_Bucket m bucketIndex key;
  bucket ← table_ m !! bucketIndex;
  match bucket !! it with
  | None => Some (end_ m)
  | Some anchor => fl.next (elements_ m) anchor
  end.

Definition ReHash_body (prevSize : nat) (m : UnorderedMap)
    (it : addr * Element) : option UnorderedMap :=
  let h := hash_ m it.2.1 in
  prevBucketIndex ← umod h prevSize;
  newBucketIndex ← umod h (length (table_ m));
  if decide (prevBucketIndex ≠ newBucketIndex) then
    jt ← Find_Previous_In_Bucket m prevBucketIndex it.2.1;
    prevBucket ← table_ m !! prevBucketIndex;
    anchor ← prevBucket !! jt;
    newBucket ← table_ m !! newBucketIndex;
    let t1 := <[newBucketIndex := anchor :: newBucket]> (table_ m) in
    prevBucket1 ← t1 !! prevBucketIndex;
    if decide (jt < length prevBucket1) then
      Some (set_table m (<[prevBucketIndex := delete jt prevBucket1]> t1))
    else None
  else Some m.

Definition ReHash (m : UnorderedMap) : option UnorderedMap :=
  let prevSize := length (table_ m) in
  let m1 := set_table m (resize (2 * prevSize) (table_ m)) in
  for_each (ReHash_body prevSize) (elements_ m1) m1.

(** The last test of [insert] is
    [static_cast<double>(size_) / table_.size() > maxLoadFactor_] with
    [maxLoadFactor_ = 1.0]: the quotient exceeds 1 exactly when [size_]
    exceeds [table_.size()]. *)
Definition insert (m : UnorderedMap) (p : Element) : option UnorderedMap :=
  r ← find m p.1;
  if decide (r ≠ end_ m) then Some m else
  m1 ← (if decide (0 < size_ m) then
          front ← fl.deref (elements_ m) (begin m);
          bucketIndex ← umod (hash_ m front.1) (length (table_ m));
          it ← Find_Previous_In_Bucket m bucketIndex front.1;
          bucket ← table_ m !! bucketIndex;
          let m' := elements_push_front m p in
          if decide (it < length bucket) then
            Some (set_table m'
                    (<[bucketIndex := <[it := begin m']> bucket]> (table_ m')))
          else None
        else Some (elements_push_front m p));
  let m2 := MkMap (hash_ m1) (elements_ m1) (table_ m1) (S (size_ m1))
                  (heap_ m1) in
  bucketIndex ← umod (hash_ m2 p.1) (length (table_ m2));
  bucket ← table_ m2 !! bucketIndex;
  let m3 := set_table m2 (<[bucketIndex := before_begin :: bucket]> (table_ m2)) in
  if decide (length (table_ m3) < size_ m3) then ReHash m3 else Some m3.

Definition erase (m : UnorderedMap) (key : KeyType) : option UnorderedMap :=
  bucketIndex ← umod (hash_ m key) (length (table_ m));
  it ← Find_Previous_In_Bucket m bucketIndex key;
  bucket ← table_ m !! bucketIndex;
  match bucket !! it with
  | None => Some m
  | Some anchor =>
      let m0 := MkMap (hash_ m) (elements_ m) (table_ m) (pred (size_ m))
                      (heap_ m) in
      jt ← fl.next (elements_ m0) anchor;
      nx ← fl.next (elements_ m0) jt;
      m1 ← (if decide (nx ≠ end_ m0) then
              succ ← fl.deref (elements_ m0) nx;
              tmpBucketIndex ← umod (hash_ m0 succ.1) (length (table_ m0));
              kt ← Find_Previous_In_Bucket m0 tmpBucketIndex succ.1;
              tmpBucket ← table_ m0 !! tmpBucketIndex;
              if decide (kt < length tmpBucket) then
                Some (set_table m0
                        (<[tmpBucketIndex := <[kt := anchor]> tmpBucket]>
                           (table_ m0)))
              else None
            else Some m0);
      bucket1 ← table_ m1 !! bucketIndex;
      anchor1 ← bucket1 !! it;
      elements1 ← fl.erase_after (elements_ m1) anchor1;
      Some (MkMap (hash_ m1) elements1
                  (<[bucketIndex := delete it bucket1]> (table_ m1))
                  (size_ m1) (heap_ m1))
  end.

Definition clear_body (m : UnorderedMap) (it : addr * Element)
    : option UnorderedMap :=
  bucketIndex ← umod (hash_ m it.2.1) (length (table_ m));
  _ ← table_ m !! bucketIndex;
  Some (set_table m (<[bucketIndex := []]> (table_ m))).

Definition clear (m : UnorderedMap) : option UnorderedMap :=
  m1 ← for_each clear_body (elements_ m) m;
  Some (MkMap (hash_ m1) [] (table_ m1) 0 (heap_ m1)).

(** Hash hashFunction() const *)
Definition hashFunction (m : UnorderedMap) : KeyType → nat := hash_ m.

(** [at(key)]: the value read through the returned reference, or the
    exception.  The member is [const]: it has no state to return.  (It
    calls [Find_Previous_In_Bucket], which is not declared [const]; the
    function here is what its body computes.) *)
Definition at_ (m : UnorderedMap) (key : KeyType)
    : option (exn + ValueType) :=
  bucketIndex ← umod (hash_ m key) (length (table_ m));
  it ← Find_Previous_In_Bucket m bucketIndex key;
  bucket ← table_ m !! bucketIndex;
  match bucket !! it with
  | None => Some (inl out_of_range)
  | Some anchor =>
      jt ← fl.next (elements_ m) anchor;
      e ← fl.deref (elements_ m) jt;
      Some (inr e.2)
  end.

(** [operator[](key)]: the new state and the node whose [second] the
    returned reference denotes. *)
Definition subscript (m : UnorderedMap) (key : KeyType)
    : option (UnorderedMap * iterator) :=
  bucketIndex ← umod (hash_ m key) (length (table_ m));
  it ← Find_Previous_In_Bucket m bucketIndex key;
  bucket ← table_ m !! bucketIndex;
  match bucket !! it with
  | Some anchor =>
      jt ← fl.next (elements_ m) anchor;
      _ ← fl.deref (elements_ m) jt;
      Some (m, jt)
  | None =>
      m' ← insert m (key, ValueType_default);
      _ ← fl.deref (elements_ m') (begin m');
      Some (m', begin m')
  end.

(** The elements [begin() .. end()] visits, in order. *)
Definition to_list (m : UnorderedMap) : option (list Element) :=
  fl.walk (S (length (elements_ m))) (elements_ m) (begin m).

(** The body of [operator=] after the self-assignment test. *)
Definition copy_from (this other : UnorderedMap) : option UnorderedMap :=
  this1 ← clear this;
  for_each insert (snd <$> elements_ other) this1.

(** [operator=] on objects held in a store: [this] and [other] are the
    addresses of the two maps. *)
Definition assign (this other : nat) (σ : list UnorderedMap)
    : option (list UnorderedMap) :=
  dst ← σ !! this;
  src ← σ !! other;
  if decide (this = other) then Some σ else
  dst' ← copy_from dst src;
  Some (<[this := dst']> σ).


(** UnorderedMap(first, last, h) and UnorderedMap(init_list, h) *)
Definition from_list (h : KeyType → nat) (init_list : list Element)
    : option UnorderedMap :=
  for_each insert init_list (new h).

End UnorderedMap.


(** ** The representation invariant *)
Section Invariant.
Context {KeyType ValueType : Type} `{EqDecision KeyType}.
Abbreviation UnorderedMap := (@UnorderedMap KeyType ValueType).

(** The pairs [begin() .. end()] ranges over, and their keys. *)
Definition contents (m : UnorderedMap) : list (KeyType * ValueType) :=
  (elements_ m).*2.

Definition keys (m : UnorderedMap) : list KeyType := (contents m).*1.

(** Every entry of the table with the index of the bucket it is in. *)
Fixpoint table_entries_from (b : nat) (t : list (list iterator))
    : list (nat * iterator) :=
  match t with
  | [] => []
  | bucket :: t' => (pair b <$> bucket) ++ table_entries_from (S b) t'
  end.

Definition table_entries (t : list (list iterator)) : list (nat * iterator) :=
  table_entries_from 0 t.

(** The table [t] indexes the list [l] under the bucket assignment [idx]:
    its entries are, each exactly once, the predecessor positions of the
    nodes of [l], each in the bucket [idx] gives to the node's key. *)
Definition indexes (idx : KeyType → nat) (l : list (addr * (KeyType * ValueType)))
    (t : list (list iterator)) : Prop :=
  table_entries t ≡ₚ (λ ln, (idx ln.2.2.1, ln.1)) <$> fl.links before_begin l.

(** The value the first pair of [ps] with the key [key] carries. *)
Fixpoint first_value (ps : list (KeyType * ValueType)) (key : KeyType)
    : option ValueType :=
  match ps with
  | [] => None
  | p :: ps' => if decide (p.1 = key) then Some p.2 else first_value ps' key
  end.

(** The pairs of [ps] whose key is neither in [seen] nor carried by an
    earlier pair of [ps]. *)
Fixpoint fresh_pairs (seen : list KeyType) (ps : list (KeyType * ValueType))
    : list (KeyType * ValueType) :=
  match ps with
  | [] => []
  | p :: ps' =>
      if decide (p.1 ∈ seen) then fresh_pairs seen ps'
      else p :: fresh_pairs (p.1 :: seen) ps'
  end.

Definition bucket_of (m : UnorderedMap) (key : KeyType) : nat :=
  hash_ m key mod length (table_ m).

(** The bucket assignment in the middle of [ReHash], from [c] buckets to
    [2 * c]: the keys in [moved] have been visited by the loop. *)
Definition rehash_idx (h : KeyType → nat) (c : nat) (moved : list KeyType)
    (key : KeyType) : nat :=
  if decide (key ∈ moved) then h key mod (2 * c) else h key mod c.

(** The key [Find_Previous_In_Bucket] reads through a table entry, and
    the bucket that key belongs to. *)
Definition entry_key (m : UnorderedMap) (x : iterator) : option KeyType :=
  jt ← fl.next (elements_ m) x;
  e ← fl.deref (elements_ m) jt;
  Some e.1.

Definition entry_home (m : UnorderedMap) (x : iterator) : option nat :=
  bucket_of m <$> entry_key m x.

Record Inv (m : UnorderedMap) : Prop := {
  inv_addrs : NoDup (elements_ m).*1;
  inv_heap : ∀ a, a ∈ (elements_ m).*1 → a < heap_ m;
  inv_keys : NoDup (keys m);
  inv_size : size_ m = length (elements_ m);
  inv_buckets : 0 < length (table_ m);
  inv_table : indexes (bucket_of m) (elements_ m) (table_ m);
}.

(** The states a program can bring a map into by calls of [insert],
    [erase], [operator[]], [clear] and [operator=], starting from a
    constructor.  No member function looks at the values stored, so a
    store through a reference that [operator[]] or [find] returned leads to
    a state that is also reached when the value stored is the one inserted
    in the first place. *)
Inductive reachable (d : ValueType) : UnorderedMap → Prop :=
  | reach_new h : reachable d (new h)
  | reach_insert m p m' :
      reachable d m → insert m p = Some m' → reachable d m'
  | reach_erase m key m' :
      reachable d m → erase m key = Some m' → reachable d m'
  | reach_subscript m key m' r :
      reachable d m → subscript d m key = Some (m', r) → reachable d m'
  | reach_clear m m' :
      reachable d m → clear m = Some m' → reachable d m'
  | reach_assign m other m' :
      reachable d m → reachable d other → copy_from m other = Some m' →
      reachable d m'.
End Invariant.

(** ** A map to run the functions on

    Keys and values are numbers, the hash of a key is the key, [ValueType()]
    is 0.  [ex_map] is what the insertion of (5,10), (7,20), (9,1), (2,3)
    into a new map produces; [ex_other] is a second map. *)
Definition ex_hash (k : nat) : nat := k.

Definition ex_pairs : list (nat * nat) := [(5, 10); (7, 20); (9, 1); (2, 3)].

Definition ex_map : @UnorderedMap nat nat :=
  MkMap ex_hash
    [(3, (2, 3)); (2, (9, 1)); (1, (7, 20)); (0, (5, 10))]
    [[]; [at_node 3; at_node 1]; [before_begin]; [at_node 2]] 4 4.

Definition ex_other : @UnorderedMap nat nat :=
  MkMap ex_hash [(1, (4, 40)); (0, (6, 60))] [[before_begin; at_node 1]; []]
    2 2.

(** * Facts about the forward list *)
Section fl_facts.
Context {E : Type}.
Implicit Types (l r : list (addr * E)) (n : addr * E) (p x : iterator).

Lemma links_snd p l : (fl.links p l).*2 = l.
Proof. revert p. induction l as [|n l IH]; intros p; simpl; [done|]. by rewrite IH. Qed.

Lemma links_app p l1 l2 :
  fl.links p (l1 ++ l2) = fl.links p l1 ++ fl.links (fl.last_pos p l1) l2.
Proof.
  revert p. induction l1 as [|n l1 IH]; intros p; simpl; [done|].
  by rewrite IH.
Qed.

Lemma last_pos_snoc p l n : fl.last_pos p (l ++ [n]) = at_node n.1.
Proof. unfold fl.last_pos. by rewrite foldl_app. Qed.

Lemma elem_of_links_split p l x n :
  (x, n) ∈ fl.links p l →
  ∃ l1 l2, l = l1 ++ n :: l2 ∧ x = fl.last_pos p l1.
Proof.
  revert p. induction l as [|n' l IH]; intros p; simpl.
  - by intros ?%elem_of_nil.
  - intros [[= -> ->]|Hin]%elem_of_cons.
    + by exists [], l.
    + destruct (IH _ Hin) as (l1 & l2 & -> & ->).
      by exists (n' :: l1), l2.
Qed.

Lemma elem_of_links_app p l1 n l2 :
  (fl.last_pos p l1, n) ∈ fl.links p (l1 ++ n :: l2).
Proof. rewrite links_app. simpl. set_solver. Qed.

Lemma last_pos_cases p l :
  (l = [] ∧ fl.last_pos p l = p) ∨
  (∃ l' n, l = l' ++ [n] ∧ fl.last_pos p l = at_node n.1).
Proof.
  destruct l as [|n l _] using rev_ind; [by left|right].
  exists l, n. by rewrite last_pos_snoc.
Qed.

Lemma next_after_app a e l1 l2 :
  a ∉ l1.*1 → fl.next_after a (l1 ++ (a, e) :: l2) = Some (fl.begin l2).
Proof.
  induction l1 as [|[b e'] l1 IH]; simpl; intros Hni.
  - by rewrite decide_True.
  - rewrite decide_False; [|set_solver]. apply IH. set_solver.
Qed.

Lemma deref_node_app a e l1 l2 :
  a ∉ l1.*1 → fl.deref_node a (l1 ++ (a, e) :: l2) = Some e.
Proof.
  induction l1 as [|[b e'] l1 IH]; simpl; intros Hni.
  - by rewrite decide_True.
  - rewrite decide_False; [|set_solver]. apply IH. set_solver.
Qed.

Lemma erase_after_node_app a e n l1 l2 :
  a ∉ l1.*1 →
  fl.erase_after_node a (l1 ++ (a, e) :: n :: l2) = Some (l1 ++ (a, e) :: l2).
Proof.
  induction l1 as [|[b e'] l1 IH]; simpl; intros Hni.
  - by rewrite decide_True.
  - rewrite decide_False; [|set_solver]. rewrite IH; [done|set_solver].
Qed.

Lemma NoDup_app_cons_fst l1 n l2 :
  NoDup (l1 ++ n :: l2).*1 → (n.1 ∉ l1.*1) ∧ (n.1 ∉ l2.*1) ∧ NoDup (l1 ++ l2).*1.
Proof.
  rewrite !fmap_app, fmap_cons. intros Hnd.
  apply NoDup_app in Hnd as (Hnd1 & Hdisj & Hnd2).
  apply NoDup_cons in Hnd2 as [Hn Hnd2].
  split_and!; [set_solver|done|].
  apply NoDup_app. set_solver.
Qed.

(** With pairwise distinct node addresses, the position paired with a node
    in [links] really is its predecessor. *)
Lemma next_last_pos l1 n l2 :
  NoDup (l1 ++ n :: l2).*1 →
  fl.next (l1 ++ n :: l2) (fl.last_pos before_begin l1) = Some (at_node n.1).
Proof.
  intros Hnd. destruct (last_pos_cases before_begin l1)
    as [[-> ->]|(l' & [a e] & -> & ->)]; simpl.
  - by destruct n.
  - rewrite <-app_assoc in *. simpl in *.
    apply NoDup_app_cons_fst in Hnd as (? & _).
    rewrite next_after_app by done. by destruct n.
Qed.

Lemma deref_mid l1 n l2 :
  NoDup (l1 ++ n :: l2).*1 →
  fl.deref (l1 ++ n :: l2) (at_node n.1) = Some n.2.
Proof.
  intros (? & _)%NoDup_app_cons_fst. destruct n. by apply deref_node_app.
Qed.

Lemma next_mid l1 n l2 :
  NoDup (l1 ++ n :: l2).*1 →
  fl.next (l1 ++ n :: l2) (at_node n.1) = Some (fl.begin l2).
Proof.
  intros (? & _)%NoDup_app_cons_fst. destruct n. by apply next_after_app.
Qed.

Lemma erase_after_last_pos l1 n l2 :
  NoDup (l1 ++ n :: l2).*1 →
  fl.erase_after (l1 ++ n :: l2) (fl.last_pos before_begin l1)
  = Some (l1 ++ l2).
Proof.
  intros Hnd. destruct (last_pos_cases before_begin l1)
    as [[-> ->]|(l' & [a e] & -> & ->)]; simpl; [done|].
  rewrite <-!app_assoc in *. simpl in *.
  apply NoDup_app_cons_fst in Hnd as (? & _).
  by rewrite erase_after_node_app.
Qed.

Lemma links_resolve l x n :
  NoDup l.*1 → (x, n) ∈ fl.links before_begin l →
  fl.next l x = Some (at_node n.1) ∧ fl.deref l (at_node n.1) = Some n.2.
Proof.
  intros Hnd (l1 & l2 & -> & ->)%elem_of_links_split.
  split; [by apply next_last_pos|by apply deref_mid].
Qed.
End fl_facts.

#[global] Arguments fl.next : simpl never.
#[global] Arguments fl.deref : simpl never.
#[global] Arguments fl.erase_after : simpl never.

(** * Facts about lists and the table *)
Section list_facts.
Context {A B : Type}.

Lemma NoDup_fmap_elem_inj (f : A → B) (l : list A) a b :
  NoDup (f <$> l) → a ∈ l → b ∈ l → f a = f b → a = b.
Proof.
  induction l as [|c l IH]; simpl; [by intros _ ?%elem_of_nil|].
  intros [Hc Hnd]%NoDup_cons [->|Ha]%elem_of_cons [->|Hb]%elem_of_cons Heq;
    [done| | |by apply IH].
  - destruct Hc. rewrite Heq. by apply list_elem_of_fmap_2.
  - destruct Hc. rewrite <-Heq. by apply list_elem_of_fmap_2.
Qed.

Lemma app_cons_snoc (l1 : list A) x l2 : l1 ++ x :: l2 = (l1 ++ [x]) ++ l2.
Proof. by rewrite <-app_assoc. Qed.

Lemma fmap_ext_elem (f g : A → B) (l : list A) :
  (∀ x, x ∈ l → f x = g x) → f <$> l = g <$> l.
Proof. intros Hfg. by apply Forall_fmap_ext_1, Forall_forall. Qed.

Lemma insert_Permutation_cons (l : list A) i x y :
  l !! i = Some x → <[i:=y]> l ≡ₚ y :: delete i l.
Proof.
  revert i. induction l as [|z l IH]; intros [|i] Hi; simplify_eq/=; [done|].
  rewrite (IH _ Hi). apply Permutation_swap.
Qed.

(** A sublist of a duplicate-free list is determined by its members. *)
Lemma sublist_filter_eq (P : A → Prop) `{∀ x, Decision (P x)} (k l : list A) :
  k `sublist_of` l → NoDup l → (∀ x, x ∈ k ↔ x ∈ l ∧ P x) →
  k = filter P l.
Proof.
  induction 1 as [|x k l Hsub IH|x k l Hsub IH]; intros Hnd Hiff.
  - done.
  - apply NoDup_cons in Hnd as [Hx Hnd].
    assert (P x) as HP by (apply Hiff; by left).
    rewrite filter_cons_True by done. f_equal. apply IH; [done|].
    intros y. split.
    + intros Hy. split; [by eapply elem_of_sublist|].
      apply Hiff. by right.
    + intros [Hy HPy].
      assert (y ∈ x :: k) as [->|?]%elem_of_cons; [|done..].
      apply Hiff. split; [by right|done].
  - apply NoDup_cons in Hnd as [Hx Hnd].
    assert (¬ P x) as HP.
    { intros HP. apply Hx. eapply elem_of_sublist; [|done].
      apply Hiff. split; [by left|done]. }
    rewrite filter_cons_False by done. apply IH; [done|].
    intros y. split.
    + intros Hy. split; [by eapply elem_of_sublist|]. by apply Hiff.
    + intros [Hy HPy]. apply Hiff. split; [by right|done].
Qed.

Lemma for_each_cons {S} (body : S → A → option S) x l s :
  for_each body (x :: l) s = s' ← body s x; for_each body l s'.
Proof. done. Qed.

End list_facts.

Section table_facts.
Implicit Types (t : list (list iterator)) (bucket : list iterator).

Lemma elem_of_table_entries_from b0 t b x :
  (b, x) ∈ table_entries_from b0 t ↔
  b0 ≤ b ∧ ∃ bucket, t !! (b - b0) = Some bucket ∧ x ∈ bucket.
Proof.
  revert b0. induction t as [|bucket0 t IH]; intros b0; simpl.
  - split; [by intros ?%elem_of_nil|]. by intros (_ & ? & ? & _).
  - rewrite elem_of_app, list_elem_of_fmap, IH. split.
    + intros [(y & [= -> ->] & Hy)|(Hle & bucket & Hb & Hx)].
      * split; [done|]. exists bucket0. by rewrite Nat.sub_diag.
      * split; [lia|]. exists bucket. split; [|done].
        by replace (b - b0) with (S (b - S b0)) by lia.
    + intros (Hle & bucket & Hb & Hx).
      destruct (decide (b = b0)) as [->|Hne].
      * rewrite Nat.sub_diag in Hb. simplify_eq/=. left. by exists x.
      * right. split; [lia|]. exists bucket. split; [|done].
        by replace (b - b0) with (S (b - S b0)) in Hb by lia.
Qed.

Lemma elem_of_table_entries t b x :
  (b, x) ∈ table_entries t ↔ ∃ bucket, t !! b = Some bucket ∧ x ∈ bucket.
Proof.
  unfold table_entries. rewrite elem_of_table_entries_from, Nat.sub_0_r.
  split; [by intros [_ ?]|]. split; [lia|done].
Qed.

(** Replacing one bucket exchanges its entries. *)
Lemma table_entries_from_insert b0 t i bucket bucket' :
  t !! i = Some bucket →
  table_entries_from b0 (<[i:=bucket']> t) ++ (pair (b0 + i) <$> bucket)
  ≡ₚ table_entries_from b0 t ++ (pair (b0 + i) <$> bucket').
Proof.
  revert b0 i. induction t as [|bucket0 t IH]; intros b0 [|i] Hi;
    simplify_eq/=.
  - rewrite Nat.add_0_r. solve_Permutation.
  - rewrite <-!app_assoc. f_equiv.
    replace (b0 + S i) with (S b0 + i) by lia. by apply IH.
Qed.

Lemma table_entries_insert t i bucket bucket' :
  t !! i = Some bucket →
  table_entries (<[i:=bucket']> t) ++ (pair i <$> bucket)
  ≡ₚ table_entries t ++ (pair i <$> bucket').
Proof. apply (table_entries_from_insert 0). Qed.

Lemma table_entries_push t i bucket x :
  t !! i = Some bucket →
  table_entries (<[i:=x :: bucket]> t) ≡ₚ (i, x) :: table_entries t.
Proof.
  intros Hi. apply (table_entries_insert _ _ _ (x :: bucket)) in Hi.
  rewrite fmap_cons, <-Permutation_middle in Hi.
  by apply (Permutation_app_inv_r _ _ ((i, x) :: table_entries t)) in Hi.
Qed.

Lemma table_entries_delete t i bucket j x :
  t !! i = Some bucket → bucket !! j = Some x →
  (i, x) :: table_entries (<[i:=delete j bucket]> t) ≡ₚ table_entries t.
Proof.
  intros Hi Hj. apply (table_entries_insert _ _ _ (delete j bucket)) in Hi.
  assert (pair i <$> bucket ≡ₚ (i, x) :: (pair i <$> delete j bucket)) as Hb.
  { rewrite <-fmap_cons. by apply fmap_Permutation, delete_Permutation. }
  rewrite Hb, <-Permutation_middle in Hi.
  by apply (Permutation_app_inv_r _ ((i, x) :: _)) in Hi.
Qed.

Lemma table_entries_replace t i bucket j x y :
  t !! i = Some bucket → bucket !! j = Some x →
  (i, x) :: table_entries (<[i:=<[j:=y]> bucket]> t)
  ≡ₚ (i, y) :: table_entries t.
Proof.
  intros Hi Hj.
  apply (table_entries_insert _ _ _ (<[j:=y]> bucket)) in Hi.
  assert (pair i <$> bucket ≡ₚ (i, x) :: (pair i <$> delete j bucket)) as Hb.
  { rewrite <-fmap_cons. by apply fmap_Permutation, delete_Permutation. }
  assert (pair i <$> <[j:=y]> bucket
          ≡ₚ (i, y) :: (pair i <$> delete j bucket)) as Hb'.
  { rewrite <-fmap_cons. by eapply fmap_Permutation, insert_Permutation_cons. }
  rewrite Hb, Hb', <-!Permutation_middle in Hi.
  by apply (Permutation_app_inv_r _ ((i, x) :: _) ((i, y) :: _)) in Hi.
Qed.

Lemma table_entries_from_replicate b0 n :
  table_entries_from b0 (replicate n []) = [].
Proof. revert b0. induction n as [|n IH]; intros b0; simpl; [done|apply IH]. Qed.

Lemma table_entries_from_app b0 t1 t2 :
  table_entries_from b0 (t1 ++ t2)
  = table_entries_from b0 t1 ++ table_entries_from (b0 + length t1) t2.
Proof.
  revert b0. induction t1 as [|bucket t1 IH]; intros b0; simpl.
  - by rewrite Nat.add_0_r.
  - rewrite IH, <-app_assoc. do 3 f_equal. lia.
Qed.

Lemma resize_double t :
  resize (2 * length t) t = t ++ replicate (length t) [].
Proof.
  unfold resize. rewrite take_ge by lia. do 2 f_equal. lia.
Qed.

Lemma table_entries_resize_double t :
  table_entries (resize (2 * length t) t) = table_entries t.
Proof.
  rewrite resize_double. unfold table_entries.
  by rewrite table_entries_from_app, table_entries_from_replicate, app_nil_r.
Qed.
End table_facts.

(** * Locating an element through the table *)
Section scan_facts.
Context {KeyType ValueType : Type} `{EqDecision KeyType}.
Implicit Types (l : list (node KeyType ValueType)) (n : node KeyType ValueType)
  (x : iterator)
  (t : list (list iterator)) (bucket : list iterator) (idx : KeyType → nat).

Lemma elem_of_links_node p l x n : (x, n) ∈ fl.links p l → n ∈ l.
Proof.
  intros Hin. rewrite <-(links_snd p l).
  by apply (list_elem_of_fmap_2 snd) in Hin.
Qed.

Lemma links_functional l x n n' :
  NoDup l.*1 →
  (x, n) ∈ fl.links before_begin l → (x, n') ∈ fl.links before_begin l →
  n = n'.
Proof.
  intros Hnd [H1 H2]%links_resolve [H1' H2']%links_resolve; try done.
  destruct n, n'; simplify_eq/=. done.
Qed.

Lemma links_injective l x x' n :
  NoDup l.*1 →
  (x, n) ∈ fl.links before_begin l → (x', n) ∈ fl.links before_begin l →
  x = x'.
Proof.
  intros Hnd Hx Hx'.
  assert ((x, n) = (x', n)) as [=]; [|done].
  eapply (NoDup_fmap_elem_inj snd); [|done..].
  rewrite links_snd. by eapply NoDup_fmap_1.
Qed.

Lemma node_key_inj l n n' :
  NoDup (l.*2).*1 → n ∈ l → n' ∈ l → n.2.1 = n'.2.1 → n = n'.
Proof.
  rewrite <-list_fmap_compose. intros Hnd Hn Hn' Heq.
  by eapply (NoDup_fmap_elem_inj (fst ∘ snd)).
Qed.

Lemma NoDup_links_fst l : NoDup l.*1 → NoDup (fl.links before_begin l).*1.
Proof.
  intros Hnd. apply NoDup_fmap_fst.
  - intros x n n'. by apply links_functional.
  - apply (NoDup_fmap_1 snd). rewrite links_snd. by eapply NoDup_fmap_1.
Qed.

Lemma scan_bucket_cons l key x bucket jt e :
  fl.next l x = Some jt → fl.deref l jt = Some e →
  scan_bucket l key (x :: bucket)
  = if decide (e.1 = key) then Some 0 else S <$> scan_bucket l key bucket.
Proof. intros Hnext Hderef. simpl. rewrite Hnext. simpl. by rewrite Hderef. Qed.

(** The scan stops at the first entry whose successor carries the key, or
    at the end of the bucket. *)
Lemma scan_bucket_spec l key bucket :
  NoDup l.*1 →
  (∀ x, x ∈ bucket → ∃ n, (x, n) ∈ fl.links before_begin l) →
  ∃ i, scan_bucket l key bucket = Some i ∧
    (∀ j x n, j < i → bucket !! j = Some x →
       (x, n) ∈ fl.links before_begin l → n.2.1 ≠ key) ∧
    (i = length bucket ∨
     ∃ x n, bucket !! i = Some x ∧ (x, n) ∈ fl.links before_begin l ∧
            n.2.1 = key).
Proof.
  intros Hnd. induction bucket as [|x0 bucket IH]; intros Hall.
  - exists 0. split_and!; [done| |by left]. intros; lia.
  - destruct (Hall x0) as [n0 Hn0]; [by left|].
    destruct (links_resolve _ _ _ Hnd Hn0) as [Hnext Hderef].
    rewrite (scan_bucket_cons _ _ _ _ _ _ Hnext Hderef).
    destruct (decide (n0.2.1 = key)) as [Hk|Hk].
    + exists 0. split_and!; [done| |]; [intros; lia|].
      right. by exists x0, n0.
    + destruct IH as (i & Hs & Hlt & Hcase); [intros; apply Hall; by right|].
      exists (S i). rewrite Hs. split_and!; [done| |].
      * intros [|j] x n Hj Hx Hin; simplify_eq/=.
        -- by rewrite (links_functional _ _ _ _ Hnd Hin Hn0).
        -- eapply Hlt; [|done..]. lia.
      * destruct Hcase as [->|(x & n & ? & ? & ?)]; [by left|].
        right. by exists x, n.
Qed.

Lemma indexes_elem idx l t b x :
  indexes idx l t →
  (b, x) ∈ table_entries t ↔
  ∃ n, (x, n) ∈ fl.links before_begin l ∧ idx n.2.1 = b.
Proof.
  unfold indexes. intros ->. rewrite list_elem_of_fmap. split.
  - intros ([x' n] & [= -> ->] & Hin). by exists n.
  - intros (n & Hin & <-). by exists (x, n).
Qed.

Lemma indexes_bucket idx l t b bucket x :
  indexes idx l t → t !! b = Some bucket → x ∈ bucket →
  ∃ n, (x, n) ∈ fl.links before_begin l ∧ idx n.2.1 = b.
Proof.
  intros Hidx Hb Hx. apply (indexes_elem _ _ _ _ _ Hidx).
  apply elem_of_table_entries. eauto.
Qed.

Lemma scan_found idx l t x n bucket :
  NoDup l.*1 → NoDup (l.*2).*1 → indexes idx l t →
  (x, n) ∈ fl.links before_begin l →
  t !! idx n.2.1 = Some bucket →
  ∃ i, scan_bucket l n.2.1 bucket = Some i ∧ bucket !! i = Some x.
Proof.
  intros Hnd Hkeys Hidx Hin Hb.
  assert (x ∈ bucket) as [j Hj]%list_elem_of_lookup_1.
  { assert ((idx n.2.1, x) ∈ table_entries t) as Hx
      by (apply (indexes_elem _ _ _ _ _ Hidx); eauto).
    apply elem_of_table_entries in Hx as (? & ? & ?). by simplify_eq. }
  destruct (scan_bucket_spec l n.2.1 bucket Hnd) as (i & Hs & Hlt & Hcase).
  { intros y Hy. destruct (indexes_bucket _ _ _ _ _ _ Hidx Hb Hy) as (?&?&?).
    eauto. }
  exists i. split; [done|].
  destruct Hcase as [->|(x' & n' & Hi & Hin' & Hk)].
  - destruct (Hlt j x n); [|done..]. by eapply lookup_lt_Some.
  - assert (n' = n) as ->
      by (eapply node_key_inj; eauto using elem_of_links_node).
    by rewrite (links_injective _ _ _ _ Hnd Hin Hin').
Qed.

Lemma scan_absent idx l t key b bucket :
  NoDup l.*1 → indexes idx l t → key ∉ (l.*2).*1 →
  t !! b = Some bucket →
  scan_bucket l key bucket = Some (length bucket).
Proof.
  intros Hnd Hidx Hkey Hb.
  destruct (scan_bucket_spec l key bucket Hnd) as (i & Hs & Hlt & Hcase).
  { intros y Hy. destruct (indexes_bucket _ _ _ _ _ _ Hidx Hb Hy) as (?&?&?).
    eauto. }
  destruct Hcase as [->|(x' & n' & Hi & Hin' & Hk)]; [done|].
  destruct Hkey. subst key. rewrite <-list_fmap_compose.
  apply (list_elem_of_fmap_2 (fst ∘ snd)). by eapply elem_of_links_node.
Qed.
End scan_facts.

(** * How the table follows a change of the list *)
Section indexes_facts.
Context {KeyType ValueType : Type} `{EqDecision KeyType}.
Implicit Types (l : list (node KeyType ValueType)) (n : node KeyType ValueType)
  (x : iterator) (t : list (list iterator)) (bucket : list iterator)
  (idx : KeyType → nat).

Lemma indexes_ext idx idx' l t :
  (∀ n, n ∈ l → idx n.2.1 = idx' n.2.1) →
  indexes idx l t → indexes idx' l t.
Proof.
  unfold indexes. intros Hext ->. erewrite fmap_ext_elem; [done|].
  intros [x n] Hin. simpl.
  by rewrite (Hext n) by (by eapply elem_of_links_node).
Qed.

Lemma indexes_nil idx (c : nat) :
  indexes (ValueType:=ValueType) idx [] (replicate c []).
Proof.
  unfold indexes, table_entries. by rewrite table_entries_from_replicate.
Qed.

(** [insert] into the empty list: one new entry. *)
Lemma indexes_push_front_nil idx n t bucket :
  indexes (ValueType:=ValueType) idx [] t → t !! idx n.2.1 = Some bucket →
  indexes idx [n] (<[idx n.2.1:=before_begin :: bucket]> t).
Proof.
  unfold indexes. simpl. intros Ht Hb.
  by rewrite (table_entries_push _ _ _ _ Hb), Ht.
Qed.

(** [insert] in front of [n0]: the entry of [n0] is redirected to the new
    node, and the new node gets an entry holding [before_begin]. *)
Lemma indexes_push_front idx n n0 r t bucket i bucket1 :
  indexes idx (n0 :: r) t →
  t !! idx n0.2.1 = Some bucket → bucket !! i = Some before_begin →
  <[idx n0.2.1:=<[i:=at_node n.1]> bucket]> t !! idx n.2.1 = Some bucket1 →
  indexes idx (n :: n0 :: r)
    (<[idx n.2.1:=before_begin :: bucket1]>
       (<[idx n0.2.1:=<[i:=at_node n.1]> bucket]> t)).
Proof.
  unfold indexes. simpl. intros Ht Hb Hi Hb1.
  rewrite (table_entries_push _ _ _ _ Hb1). f_equiv.
  pose proof (table_entries_replace _ _ _ _ _ (at_node n.1) Hb Hi) as Hr.
  rewrite Ht in Hr. rewrite Permutation_swap in Hr.
  by apply Permutation_cons_inv in Hr.
Qed.

(** One step of [ReHash]: the entry of [n] moves to the bucket [new]. *)
Lemma indexes_move idx l t x n bucket jt new newBucket :
  NoDup (l.*2).*1 → indexes idx l t →
  (x, n) ∈ fl.links before_begin l →
  t !! idx n.2.1 = Some bucket → bucket !! jt = Some x →
  new ≠ idx n.2.1 → t !! new = Some newBucket →
  indexes (λ k, if decide (k = n.2.1) then new else idx k) l
    (<[idx n.2.1:=delete jt bucket]> (<[new:=x :: newBucket]> t)).
Proof.
  unfold indexes. intros Hkeys Ht Hin Hb Hj Hne Hnew.
  assert (<[new:=x :: newBucket]> t !! idx n.2.1 = Some bucket) as Hb'
    by (by rewrite list_lookup_insert_ne).
  pose proof (table_entries_delete _ _ _ _ _ Hb' Hj) as Hd.
  rewrite (table_entries_push _ _ _ _ Hnew), Ht in Hd.
  apply elem_of_Permutation in Hin as Hperm. destruct Hperm as [L' Hperm].
  assert (∀ y n', (y, n') ∈ L' → n'.2.1 ≠ n.2.1) as Hother.
  { intros y n' Hin' Heq.
    assert (NoDup ((fst ∘ snd ∘ snd) <$> fl.links before_begin l)) as Hnd.
    { by rewrite !list_fmap_compose, links_snd. }
    rewrite Hperm in Hnd. simpl in Hnd. apply NoDup_cons in Hnd as [Hni _].
    destruct Hni. rewrite <-Heq. by apply (list_elem_of_fmap_2 (fst ∘ snd ∘ snd)) in Hin'. }
  rewrite Hperm in Hd |- *. simpl in *. rewrite decide_True by done.
  rewrite Permutation_swap in Hd. apply Permutation_cons_inv in Hd.
  rewrite Hd. f_equiv. erewrite fmap_ext_elem; [done|].
  intros [y n'] Hin'. simpl. rewrite decide_False; eauto.
Qed.

(** [erase] of the node [n]: its entry goes, and the entry of its
    successor, if it has one, takes over its position. *)
Lemma indexes_erase_last idx l1 n t bucket i :
  indexes idx (l1 ++ [n]) t →
  t !! idx n.2.1 = Some bucket →
  bucket !! i = Some (fl.last_pos before_begin l1) →
  indexes idx l1 (<[idx n.2.1:=delete i bucket]> t).
Proof.
  unfold indexes. rewrite links_app. simpl. intros Ht Hb Hi.
  pose proof (table_entries_delete _ _ _ _ _ Hb Hi) as Hd.
  rewrite Ht, fmap_app in Hd. simpl in Hd.
  rewrite <-Permutation_middle, app_nil_r in Hd.
  by apply Permutation_cons_inv in Hd.
Qed.

Lemma indexes_erase_mid idx l1 n s l2 t tmpBucket kt bucket1 i :
  indexes idx (l1 ++ n :: s :: l2) t →
  t !! idx s.2.1 = Some tmpBucket → tmpBucket !! kt = Some (at_node n.1) →
  <[idx s.2.1:=<[kt:=fl.last_pos before_begin l1]> tmpBucket]> t
    !! idx n.2.1 = Some bucket1 →
  bucket1 !! i = Some (fl.last_pos before_begin l1) →
  indexes idx (l1 ++ s :: l2)
    (<[idx n.2.1:=delete i bucket1]>
       (<[idx s.2.1:=<[kt:=fl.last_pos before_begin l1]> tmpBucket]> t)).
Proof.
  unfold indexes. rewrite !links_app. simpl.
  set (x := fl.last_pos before_begin l1). intros Ht Hs Hkt Hb1 Hi.
  pose proof (table_entries_replace _ _ _ _ _ x Hs Hkt) as Hr.
  pose proof (table_entries_delete _ _ _ _ _ Hb1 Hi) as Hd.
  rewrite <-Hd, Ht in Hr. rewrite !fmap_app in *. simpl in *.
  rewrite <-!Permutation_middle in Hr.
  match type of Hr with
  | ?a :: ?b :: ?E ≡ₚ ?c :: ?b :: ?a :: ?F =>
      assert (a :: b :: E ≡ₚ a :: b :: c :: F) as Hr'
        by (rewrite Hr; solve_Permutation)
  end.
  do 2 apply Permutation_cons_inv in Hr'.
  by rewrite Hr', <-Permutation_middle.
Qed.
End indexes_facts.

(** * The member functions on a map that satisfies the invariant *)
Section lookup_facts.
Context {KeyType ValueType : Type} `{EqDecision KeyType}.
Implicit Types (m : @UnorderedMap KeyType ValueType)
  (n : node KeyType ValueType) (x : iterator) (key : KeyType).

Lemma umod_pos a b : 0 < b → umod a b = Some (a mod b).
Proof. intros Hb. unfold umod. rewrite decide_False; [done|lia]. Qed.

Lemma elem_of_links_exists p (l : list (node KeyType ValueType)) n :
  n ∈ l → ∃ x, (x, n) ∈ fl.links p l.
Proof.
  intros (l1 & l2 & ->)%list_elem_of_split.
  exists (fl.last_pos p l1). apply elem_of_links_app.
Qed.

Lemma elem_of_keys m key :
  key ∈ keys m ↔ ∃ a v, (a, (key, v)) ∈ elements_ m.
Proof.
  unfold keys, contents. rewrite <-list_fmap_compose, list_elem_of_fmap.
  split.
  - intros ([a [k v]] & -> & Hin). by exists a, v.
  - intros (a & v & Hin). by exists (a, (key, v)).
Qed.

Lemma Inv_bucket m key :
  Inv m → ∃ bucket, table_ m !! bucket_of m key = Some bucket.
Proof.
  intros HI. apply lookup_lt_is_Some_2, Nat.mod_upper_bound.
  pose proof (inv_buckets m HI). lia.
Qed.

Lemma locate_found m x n :
  Inv m → (x, n) ∈ fl.links before_begin (elements_ m) →
  ∃ bucket i, table_ m !! bucket_of m n.2.1 = Some bucket ∧
    Find_Previous_In_Bucket m (bucket_of m n.2.1) n.2.1 = Some i ∧
    bucket !! i = Some x.
Proof.
  intros HI Hin. destruct (Inv_bucket m n.2.1 HI) as [bucket Hb].
  destruct (scan_found (bucket_of m) (elements_ m) (table_ m) x n bucket)
    as (i & Hs & Hi); [apply HI..|done|done|].
  exists bucket, i. unfold Find_Previous_In_Bucket. by rewrite Hb.
Qed.

Lemma locate_absent m key :
  Inv m → key ∉ keys m →
  ∃ bucket, table_ m !! bucket_of m key = Some bucket ∧
    Find_Previous_In_Bucket m (bucket_of m key) key = Some (length bucket).
Proof.
  intros HI Hkey. destruct (Inv_bucket m key HI) as [bucket Hb].
  exists bucket. split; [done|]. unfold Find_Previous_In_Bucket.
  rewrite Hb. simpl. eapply scan_absent; [apply HI|apply HI|done|done].
Qed.

Lemma umod_bucket m key :
  Inv m → umod (hash_ m key) (length (table_ m)) = Some (bucket_of m key).
Proof. intros HI. apply umod_pos, HI. Qed.

(** [find] yields the node that carries the key, or [end()]. *)
Lemma find_found m a key v :
  Inv m → (a, (key, v)) ∈ elements_ m → find m key = Some (at_node a).
Proof.
  intros HI Hin.
  destruct (elem_of_links_exists before_begin _ _ Hin) as [x Hx].
  destruct (locate_found m x _ HI Hx) as (bucket & i & Hb & Hf & Hi).
  unfold find. rewrite umod_bucket by done. simpl in *.
  rewrite Hf. simpl. rewrite Hb. simpl. rewrite Hi.
  by apply (links_resolve _ _ _ (inv_addrs m HI)) in Hx as [? _].
Qed.

Lemma find_absent m key :
  Inv m → key ∉ keys m → find m key = Some end_it.
Proof.
  intros HI Hkey. destruct (locate_absent m key HI Hkey) as (bucket & Hb & Hf).
  unfold find. rewrite umod_bucket by done. simpl.
  rewrite Hf. simpl. rewrite Hb. simpl.
  by rewrite lookup_ge_None_2.
Qed.

Lemma at_found m a key v :
  Inv m → (a, (key, v)) ∈ elements_ m → at_ m key = Some (inr v).
Proof.
  intros HI Hin.
  destruct (elem_of_links_exists before_begin _ _ Hin) as [x Hx].
  destruct (locate_found m x _ HI Hx) as (bucket & i & Hb & Hf & Hi).
  unfold at_. rewrite umod_bucket by done. simpl in *.
  rewrite Hf. simpl. rewrite Hb. simpl. rewrite Hi.
  apply (links_resolve _ _ _ (inv_addrs m HI)) in Hx as [-> Hd].
  simpl in *. by rewrite Hd.
Qed.

Lemma at_absent m key :
  Inv m → key ∉ keys m → at_ m key = Some (inl out_of_range).
Proof.
  intros HI Hkey. destruct (locate_absent m key HI Hkey) as (bucket & Hb & Hf).
  unfold at_. rewrite umod_bucket by done. simpl.
  rewrite Hf. simpl. rewrite Hb. simpl.
  by rewrite lookup_ge_None_2.
Qed.

End lookup_facts.

Section rehash_facts.
Context {KeyType ValueType : Type} `{EqDecision KeyType}.
Implicit Types (m : @UnorderedMap KeyType ValueType)
  (n : node KeyType ValueType) (x : iterator) (key : KeyType).

Local Arguments Nat.mul : simpl never.
Local Arguments Nat.modulo : simpl never.

Lemma mod_double h c :
  h mod (2 * c) = h mod c ∨ h mod (2 * c) = h mod c + c.
Proof.
  rewrite (Nat.mul_comm 2 c), Nat.Div0.mod_mul_r.
  pose proof (Nat.mod_upper_bound (h / c) 2) as Hlt.
  destruct ((h / c) mod 2) as [|[|?]]; [left|right|]; lia.
Qed.

Lemma rehash_idx_snoc h c moved n' n :
  (if decide (n'.2.1 = n.2.1) then h n.2.1 mod (2 * c)
   else rehash_idx h c ((moved.*2).*1) n'.2.1)
  = rehash_idx h c (((moved ++ [n]).*2).*1) n'.2.1.
Proof.
  unfold rehash_idx in *. rewrite !fmap_app. simpl.
  destruct (decide (n'.2.1 = n.2.1)) as [Hk|Hk].
  - rewrite Hk. rewrite decide_True; [done|set_solver].
  - destruct (decide (n'.2.1 ∈ (moved.*2).*1)).
    + rewrite decide_True; [done|set_solver].
    + rewrite decide_False; [done|set_solver].
Qed.

(** One iteration of the loop of [ReHash], on the node [n]. *)
Lemma ReHash_body_spec c h l moved m n :
  0 < c → elements_ m = l → hash_ m = h →
  NoDup l.*1 → NoDup (l.*2).*1 →
  length (table_ m) = 2 * c →
  indexes (rehash_idx h c ((moved.*2).*1)) l (table_ m) →
  n ∈ l → n.2.1 ∉ (moved.*2).*1 →
  ∃ m', ReHash_body c m n = Some m' ∧
    elements_ m' = l ∧ hash_ m' = h ∧ size_ m' = size_ m ∧
    heap_ m' = heap_ m ∧ length (table_ m') = 2 * c ∧
    indexes (rehash_idx h c (((moved ++ [n]).*2).*1)) l (table_ m') ∧
    (∀ b bucket, b < c → table_ m !! b = Some bucket →
       ∃ bucket', table_ m' !! b = Some bucket' ∧
                  bucket' `sublist_of` bucket).
Proof.
  intros Hc Hl Hh Hnd Hkeys Hlen Hidx Hn Hfresh.
  unfold ReHash_body. rewrite Hh, Hlen.
  rewrite !umod_pos by lia. simpl.
  assert (rehash_idx h c ((moved.*2).*1) n.2.1 = h n.2.1 mod c) as Hold
    by (unfold rehash_idx; by rewrite decide_False).
  destruct (decide (h n.2.1 mod c ≠ h n.2.1 mod (2 * c))) as [Hne|Heq].
  - destruct (elem_of_links_exists before_begin _ _ Hn) as [x Hx].
    assert (c ≤ h n.2.1 mod (2 * c) < 2 * c) as Hnew.
    { pose proof (Nat.mod_upper_bound (h n.2.1) (2 * c)).
      pose proof (Nat.mod_upper_bound (h n.2.1) c).
      destruct (mod_double (h n.2.1) c); lia. }
    assert (h n.2.1 mod c < c) as Hprev by (apply Nat.mod_upper_bound; lia).
    destruct (lookup_lt_is_Some_2 (table_ m) (h n.2.1 mod c))
      as [bucket Hb]; [lia|].
    destruct (lookup_lt_is_Some_2 (table_ m) (h n.2.1 mod (2 * c)))
      as [newBucket Hnb]; [lia|].
    destruct (scan_found _ _ _ x n bucket Hnd Hkeys Hidx Hx) as (jt & Hs & Hjt).
    { by rewrite Hold. }
    unfold Find_Previous_In_Bucket. rewrite Hl, Hb. simpl.
    rewrite Hs. simpl. rewrite Hjt. simpl. rewrite Hnb. simpl.
    rewrite list_lookup_insert_ne by lia. rewrite Hb. simpl.
    rewrite decide_True by (by eapply lookup_lt_Some).
    eexists. split; [done|]. simpl. split_and!; try done.
    + by rewrite !length_insert.
    + pose proof (indexes_move _ _ _ x n bucket jt (h n.2.1 mod (2 * c))
                    newBucket Hkeys Hidx Hx) as Hmove.
      rewrite Hold in Hmove.
      eapply indexes_ext; [|apply Hmove; (done || lia)].
      intros n' Hn'. simpl. apply rehash_idx_snoc.
    + intros b bucket0 Hlt Hb0.
      destruct (decide (b = h n.2.1 mod c)) as [->|Hbne].
      * simplify_eq. exists (delete jt bucket). split; [|apply sublist_delete].
        apply list_lookup_insert_eq. rewrite length_insert. lia.
      * exists bucket0. split; [|done].
        by rewrite !list_lookup_insert_ne by lia.
  - exists m. split_and!; try done.
    + eapply indexes_ext; [|done]. intros n' Hn'.
      rewrite <-rehash_idx_snoc.
      destruct (decide (n'.2.1 = n.2.1)) as [->|]; [|done].
      rewrite Hold.
      by destruct (decide (h n.2.1 mod c = h n.2.1 mod (2 * c)));
        [|destruct Heq].
    + intros b bucket _ Hb. by exists bucket.
Qed.

Lemma ReHash_loop c h l todo : ∀ moved m,
  0 < c → elements_ m = l → hash_ m = h → l = moved ++ todo →
  NoDup l.*1 → NoDup (l.*2).*1 →
  length (table_ m) = 2 * c →
  indexes (rehash_idx h c ((moved.*2).*1)) l (table_ m) →
  ∃ m', for_each (ReHash_body c) todo m = Some m' ∧
    elements_ m' = l ∧ hash_ m' = h ∧ size_ m' = size_ m ∧
    heap_ m' = heap_ m ∧ length (table_ m') = 2 * c ∧
    indexes (λ key, h key mod (2 * c)) l (table_ m') ∧
    (∀ b bucket, b < c → table_ m !! b = Some bucket →
       ∃ bucket', table_ m' !! b = Some bucket' ∧
                  bucket' `sublist_of` bucket).
Proof.
  induction todo as [|n todo IH]; intros moved m Hc Hl Hh Hsplit Hnd Hkeys Hlen Hidx.
  - exists m. split_and!; try done.
    + eapply indexes_ext; [|done]. intros n Hn. unfold rehash_idx.
      rewrite decide_True; [done|]. rewrite app_nil_r in Hsplit.
      rewrite <-Hsplit, <-list_fmap_compose.
      by apply (list_elem_of_fmap_2 (fst ∘ snd)).
    + intros b bucket _ Hb. by exists bucket.
  - assert (n.2.1 ∉ (moved.*2).*1) as Hfresh.
    { pose proof Hkeys as Hkeys'.
      rewrite Hsplit, !fmap_app, !fmap_cons in Hkeys'.
      apply NoDup_app in Hkeys' as (_ & Hdisj & _). intros Hin.
      apply (Hdisj _ Hin). by left. }
    assert (n ∈ l) as Hn by (rewrite Hsplit; set_solver).
    destruct (ReHash_body_spec c h l moved m n)
      as (m1 & Hbody & ? & ? & Hsz & Hhp & ? & ? & Hsub1); try done.
    destruct (IH (moved ++ [n]) m1)
      as (m' & Hfor & ? & ? & ? & ? & ? & ? & Hsub); try done.
    { by rewrite <-app_assoc. }
    exists m'. rewrite for_each_cons, Hbody. split_and!; try done; try congruence.
    intros b bucket Hlt Hb.
    destruct (Hsub1 b bucket Hlt Hb) as (bucket1 & Hb1 & ?).
    destruct (Hsub b bucket1 Hlt Hb1) as (bucket' & ? & ?).
    exists bucket'. split; [done|]. by etrans.
Qed.

Lemma length_resize_double (t : list (list iterator)) :
  length (resize (2 * length t) t) = 2 * length t.
Proof. rewrite resize_double, length_app, length_replicate. lia. Qed.

(** [ReHash] doubles the table and keeps the invariant; a bucket of the
    old table only loses entries. *)
Lemma ReHash_spec m :
  Inv m →
  ∃ m', ReHash m = Some m' ∧
    elements_ m' = elements_ m ∧ hash_ m' = hash_ m ∧
    size_ m' = size_ m ∧ heap_ m' = heap_ m ∧
    length (table_ m') = 2 * length (table_ m) ∧ Inv m' ∧
    (∀ b bucket, table_ m !! b = Some bucket →
       ∃ bucket', table_ m' !! b = Some bucket' ∧
                  bucket' `sublist_of` bucket).
Proof.
  intros HI. unfold ReHash.
  destruct (ReHash_loop (length (table_ m)) (hash_ m) (elements_ m)
              (elements_ m) []
              (set_table m (resize (2 * length (table_ m)) (table_ m))))
    as (m' & Hfor & Hel & Hh & Hsz & Hhp & Hlen & Hidx & Hsub);
    try done; try apply HI.
  - apply length_resize_double.
  - unfold indexes. simpl. rewrite table_entries_resize_double.
    pose proof (inv_table m HI) as Ht. unfold indexes in Ht. rewrite Ht.
    erewrite fmap_ext_elem; [done|]. intros [x n] _. simpl.
    unfold rehash_idx, bucket_of. by rewrite decide_False by set_solver.
  - exists m'. simpl in *. split_and!; try done.
    + split.
      * rewrite Hel. apply HI.
      * rewrite Hel, Hhp. apply HI.
      * unfold keys, contents. rewrite Hel. apply HI.
      * rewrite Hsz, Hel. apply HI.
      * rewrite Hlen. pose proof (inv_buckets m HI). lia.
      * rewrite Hel. eapply indexes_ext; [|done]. intros n _.
        unfold bucket_of. by rewrite Hh, Hlen.
    + intros b bucket Hb. apply Hsub.
      * by eapply lookup_lt_Some.
      * rewrite resize_double. by apply lookup_app_l_Some.
Qed.
End rehash_facts.

Section insert_facts.
Context {KeyType ValueType : Type} `{EqDecision KeyType}.
Implicit Types (m : @UnorderedMap KeyType ValueType)
  (n : node KeyType ValueType) (x : iterator) (key : KeyType)
  (p : KeyType * ValueType).

Local Arguments Nat.mul : simpl never.
Local Arguments Nat.modulo : simpl never.

Lemma insert_present m p :
  Inv m → p.1 ∈ keys m → insert m p = Some m.
Proof.
  intros HI (a & v & Hin)%elem_of_keys. unfold insert.
  by rewrite (find_found m a p.1 v) by done.
Qed.

Lemma Inv_push_front m p t :
  Inv m → p.1 ∉ keys m → length t = length (table_ m) →
  indexes (bucket_of m) ((heap_ m, p) :: elements_ m) t →
  Inv (MkMap (hash_ m) ((heap_ m, p) :: elements_ m) t (S (size_ m))
             (S (heap_ m))).
Proof.
  intros HI Hkey Hlen Hidx. split; simpl.
  - apply NoDup_cons. split; [|apply HI].
    intros Hin%(inv_heap m HI). lia.
  - intros a [->|Hin%(inv_heap m HI)]%elem_of_cons; lia.
  - unfold keys, contents. simpl. apply NoDup_cons. split; [done|apply HI].
  - by rewrite (inv_size m HI).
  - rewrite Hlen. apply HI.
  - eapply indexes_ext; [|done]. intros n _. unfold bucket_of. simpl.
    by rewrite Hlen.
Qed.

(** The first half of [insert], up to the test of the load factor. *)
Lemma insert_absent_link m p :
  Inv m → p.1 ∉ keys m →
  ∃ m3, Inv m3 ∧
    elements_ m3 = (heap_ m, p) :: elements_ m ∧ hash_ m3 = hash_ m ∧
    size_ m3 = S (size_ m) ∧ heap_ m3 = S (heap_ m) ∧
    length (table_ m3) = length (table_ m) ∧
    insert m p
    = if decide (length (table_ m3) < size_ m3) then ReHash m3 else Some m3.
Proof.
  intros HI Hkey.
  pose proof (inv_buckets m HI) as Hpos.
  pose proof (inv_table m HI) as Hidx.
  destruct (decide (0 < size_ m)) as [Hsz|Hsz].
  - assert (∃ n0 r, elements_ m = n0 :: r) as (n0 & r & Hel).
    { destruct (elements_ m) as [|n0 r] eqn:Hel; [|by eauto].
      rewrite (inv_size m HI), Hel in Hsz. simpl in Hsz. lia. }
    assert (begin m = at_node n0.1) as Hbegin
      by (unfold begin; rewrite Hel; by destruct n0).
    assert (fl.deref (elements_ m) (begin m) = Some n0.2) as Hderef.
    { rewrite Hbegin, Hel. apply (deref_mid [] n0 r).
      rewrite <-Hel. apply HI. }
    assert ((before_begin, n0) ∈ fl.links before_begin (elements_ m)) as Hx
      by (rewrite Hel; by left).
    destruct (locate_found m _ _ HI Hx) as (bucket & i & Hb & Hf & Hi).
    destruct (lookup_lt_is_Some_2
                (<[bucket_of m n0.2.1:=<[i:=at_node (heap_ m)]> bucket]>
                   (table_ m)) (bucket_of m p.1)) as [bucket1 Hb1].
    { rewrite length_insert. by apply Nat.mod_upper_bound, Nat.neq_0_lt_0. }
    exists (MkMap (hash_ m) ((heap_ m, p) :: elements_ m)
              (<[bucket_of m p.1:=before_begin :: bucket1]>
                 (<[bucket_of m n0.2.1:=<[i:=at_node (heap_ m)]> bucket]>
                    (table_ m)))
              (S (size_ m)) (S (heap_ m))).
    split_and!; simpl; try done.
    + apply Inv_push_front; try done; [by rewrite !length_insert|].
      rewrite Hel in Hidx |- *.
      by apply (indexes_push_front _ (heap_ m, p) n0 r _ bucket i bucket1).
    + by rewrite !length_insert.
    + unfold insert. rewrite find_absent by done. simpl.
      rewrite decide_True by done. rewrite Hderef. simpl.
      rewrite umod_bucket by done. simpl. rewrite Hf. simpl.
      rewrite Hb. simpl.
      rewrite decide_True by (by eapply lookup_lt_Some). simpl.
      rewrite length_insert, umod_bucket by done. simpl.
      change (begin (elements_push_front m p)) with (at_node (heap_ m)).
      by rewrite Hb1.
  - assert (elements_ m = []) as Hel.
    { apply length_zero_iff_nil. rewrite <-(inv_size m HI). lia. }
    destruct (Inv_bucket m p.1 HI) as [bucket Hb].
    exists (MkMap (hash_ m) ((heap_ m, p) :: elements_ m)
              (<[bucket_of m p.1:=before_begin :: bucket]> (table_ m))
              (S (size_ m)) (S (heap_ m))).
    split_and!; simpl; try done.
    + apply Inv_push_front; try done; [by rewrite !length_insert|].
      rewrite Hel in Hidx |- *.
      by apply (indexes_push_front_nil _ (heap_ m, p)).
    + by rewrite !length_insert.
    + unfold insert. rewrite find_absent by done. simpl.
      rewrite decide_False by done. simpl.
      rewrite umod_bucket by done. simpl.
      by rewrite Hb.
Qed.

Lemma insert_absent m p :
  Inv m → p.1 ∉ keys m →
  ∃ m', insert m p = Some m' ∧ Inv m' ∧
    elements_ m' = (heap_ m, p) :: elements_ m ∧ hash_ m' = hash_ m ∧
    size_ m' = S (size_ m) ∧ heap_ m' = S (heap_ m) ∧
    length (table_ m')
    = if decide (length (table_ m) < S (size_ m))
      then 2 * length (table_ m) else length (table_ m).
Proof.
  intros HI Hkey.
  destruct (insert_absent_link m p HI Hkey)
    as (m3 & HI3 & Hel & Hh & Hsz & Hhp & Hlen & ->).
  rewrite Hlen, Hsz. destruct (decide _).
  - destruct (ReHash_spec m3 HI3) as (m' & -> & ? & ? & ? & ? & ? & ? & _).
    exists m'. split_and!; try done; congruence.
  - by exists m3.
Qed.
End insert_facts.

Section erase_facts.
Context {KeyType ValueType : Type} `{EqDecision KeyType}.
Implicit Types (m : @UnorderedMap KeyType ValueType)
  (n s : node KeyType ValueType) (x : iterator) (key : KeyType)
  (l : list (node KeyType ValueType)).

Local Arguments Nat.modulo : simpl never.

Lemma erase_absent m key :
  Inv m → key ∉ keys m → erase m key = Some m.
Proof.
  intros HI Hkey. destruct (locate_absent m key HI Hkey) as (bucket & Hb & Hf).
  unfold erase. rewrite umod_bucket by done. simpl.
  rewrite Hf. simpl. rewrite Hb. simpl.
  by rewrite lookup_ge_None_2.
Qed.

Lemma Inv_erase m l1 n l2 t :
  Inv m → elements_ m = l1 ++ n :: l2 → length t = length (table_ m) →
  indexes (bucket_of m) (l1 ++ l2) t →
  Inv (MkMap (hash_ m) (l1 ++ l2) t (pred (size_ m)) (heap_ m)).
Proof.
  intros HI Hel Hlen Hidx.
  pose proof (inv_addrs m HI) as Hnd. pose proof (inv_keys m HI) as Hkeys.
  pose proof (inv_heap m HI) as Hheap.
  unfold keys, contents in Hkeys. rewrite Hel in Hnd, Hkeys, Hheap.
  split; simpl.
  - by apply NoDup_app_cons_fst in Hnd as (_ & _ & ?).
  - intros a Ha. apply Hheap. rewrite fmap_app, fmap_cons.
    rewrite fmap_app in Ha. set_solver.
  - unfold keys, contents. simpl.
    rewrite !fmap_app, !fmap_cons in Hkeys. rewrite !fmap_app.
    apply NoDup_app in Hkeys as (? & Hdisj & [_ ?]%NoDup_cons).
    apply NoDup_app. split_and!; [done| |done].
    intros k Hk1 Hk2. apply (Hdisj k Hk1). by right.
  - rewrite (inv_size m HI), Hel, !length_app. simpl. lia.
  - rewrite Hlen. apply HI.
  - eapply indexes_ext; [|done]. intros n' _. unfold bucket_of. simpl.
    by rewrite Hlen.
Qed.

(** [erase] of the key of the node [n]: the node is unlinked, everything
    else stays where it is. *)
Lemma erase_present m l1 n l2 :
  Inv m → elements_ m = l1 ++ n :: l2 →
  ∃ m', erase m n.2.1 = Some m' ∧ Inv m' ∧
    elements_ m' = l1 ++ l2 ∧ hash_ m' = hash_ m ∧
    size_ m' = pred (size_ m) ∧ heap_ m' = heap_ m ∧
    length (table_ m') = length (table_ m).
Proof.
  intros HI Hel.
  pose proof (inv_addrs m HI) as Hnd. rewrite Hel in Hnd.
  pose proof (inv_table m HI) as Hidx. rewrite Hel in Hidx.
  set (x := fl.last_pos before_begin l1).
  assert ((x, n) ∈ fl.links before_begin (elements_ m)) as Hx
    by (rewrite Hel; apply elem_of_links_app).
  destruct (locate_found m _ _ HI Hx) as (bucket & i & Hb & Hf & Hi).
  assert (fl.next (elements_ m) x = Some (at_node n.1)) as Hnext
    by (rewrite Hel; by apply next_last_pos).
  assert (fl.next (elements_ m) (at_node n.1) = Some (fl.begin l2)) as Hnext2
    by (rewrite Hel; by apply next_mid).
  assert (fl.erase_after (elements_ m) x = Some (l1 ++ l2)) as Herase
    by (rewrite Hel; by apply erase_after_last_pos).
  destruct l2 as [|s l2]; [|assert (fl.begin (s :: l2) = at_node s.1) as Hbegin
                               by (by destruct s); rewrite Hbegin in Hnext2].
  - exists (MkMap (hash_ m) (l1 ++ [])
              (<[bucket_of m n.2.1:=delete i bucket]> (table_ m))
              (pred (size_ m)) (heap_ m)).
    split_and!; simpl; try done.
    + unfold erase. rewrite umod_bucket by done. simpl.
      rewrite Hf. simpl. rewrite Hb. simpl. rewrite Hi. simpl.
      rewrite Hnext. simpl. rewrite Hnext2. simpl.
      rewrite Hb. simpl. rewrite Hi. simpl. by rewrite Herase.
    + eapply Inv_erase; try done; [by rewrite length_insert|].
      rewrite app_nil_r. by eapply indexes_erase_last.
    + by rewrite length_insert.
  - assert (fl.deref (elements_ m) (at_node s.1) = Some s.2) as Hderef.
    { rewrite Hel, (app_cons_snoc l1 n (s :: l2)).
      apply deref_mid. by rewrite <-(app_cons_snoc l1 n (s :: l2)). }
    assert ((at_node n.1, s) ∈ fl.links before_begin (elements_ m)) as Hs.
    { rewrite Hel, (app_cons_snoc l1 n (s :: l2)).
      rewrite <-(last_pos_snoc before_begin l1 n).
      apply elem_of_links_app. }
    destruct (locate_found m _ _ HI Hs) as (tmpBucket & kt & Htb & Htf & Hkt).
    assert (∃ bucket1,
      <[bucket_of m s.2.1:=<[kt:=x]> tmpBucket]> (table_ m)
        !! bucket_of m n.2.1 = Some bucket1 ∧ bucket1 !! i = Some x)
      as (bucket1 & Hb1 & Hi1).
    { destruct (decide (bucket_of m s.2.1 = bucket_of m n.2.1)) as [Heq|Hne].
      - rewrite Heq in *. simplify_eq. exists (<[kt:=x]> bucket). split.
        + apply list_lookup_insert_eq. by eapply lookup_lt_Some.
        + rewrite list_lookup_insert. case_decide; [done|done].
      - exists bucket. by rewrite list_lookup_insert_ne. }
    exists (MkMap (hash_ m) (l1 ++ s :: l2)
              (<[bucket_of m n.2.1:=delete i bucket1]>
                 (<[bucket_of m s.2.1:=<[kt:=x]> tmpBucket]> (table_ m)))
              (pred (size_ m)) (heap_ m)).
    split_and!; simpl; try done.
    + unfold erase. rewrite umod_bucket by done. simpl.
      rewrite Hf. simpl. rewrite Hb. simpl. rewrite Hi. simpl.
      rewrite Hnext. simpl. rewrite Hnext2. simpl.
      rewrite Hderef. simpl.
      rewrite umod_bucket by done. simpl.
      unfold Find_Previous_In_Bucket in Htf |- *. simpl. rewrite Htf. simpl.
      rewrite Htb. simpl.
      rewrite decide_True by (by eapply lookup_lt_Some). simpl.
      rewrite Hb1. simpl. rewrite Hi1. simpl. by rewrite Herase.
    + eapply Inv_erase; try done; [by rewrite !length_insert|].
      by eapply indexes_erase_mid.
    + by rewrite !length_insert.
Qed.
End erase_facts.

Section clear_facts.
Context {KeyType ValueType : Type} `{EqDecision KeyType}.
Implicit Types (m : @UnorderedMap KeyType ValueType)
  (n : node KeyType ValueType) (x : iterator) (key : KeyType)
  (l : list (node KeyType ValueType)).

Local Arguments Nat.modulo : simpl never.

Lemma all_nil_replicate (t : list (list iterator)) :
  (∀ b bucket, t !! b = Some bucket → bucket = []) →
  t = replicate (length t) [].
Proof.
  induction t as [|bucket t IH]; intros Hall; simpl; [done|].
  rewrite (Hall 0 bucket) by done. f_equal. apply IH.
  intros b bucket' Hb. by apply (Hall (S b)).
Qed.

(** The loop of [clear]: the bucket of every node visited is emptied, the
    other buckets are not touched. *)
Lemma clear_loop l : ∀ m,
  0 < length (table_ m) →
  ∃ m', for_each clear_body l m = Some m' ∧
    hash_ m' = hash_ m ∧ elements_ m' = elements_ m ∧
    size_ m' = size_ m ∧ heap_ m' = heap_ m ∧
    length (table_ m') = length (table_ m) ∧
    ∀ b bucket, table_ m' !! b = Some bucket →
      bucket = [] ∨
      (table_ m !! b = Some bucket ∧ ∀ n, n ∈ l → bucket_of m n.2.1 ≠ b).
Proof.
  induction l as [|n l IH]; intros m Hpos.
  - exists m. split_and!; try done. intros b bucket Hb. right.
    split; [done|]. by intros n ?%elem_of_nil.
  - destruct (lookup_lt_is_Some_2 (table_ m) (bucket_of m n.2.1))
      as [bucket0 Hb0]; [apply Nat.mod_upper_bound; lia|].
    set (m1 := set_table m (<[bucket_of m n.2.1:=[]]> (table_ m))).
    assert (clear_body m n = Some m1) as Hbody.
    { unfold clear_body. rewrite umod_pos by done. simpl.
      unfold bucket_of in Hb0. by rewrite Hb0. }
    destruct (IH m1) as (m' & Hfor & ? & ? & ? & ? & Hlen & Hall).
    { unfold m1. simpl. by rewrite length_insert. }
    exists m'. rewrite for_each_cons, Hbody. simpl.
    unfold m1 in *. simpl in *. rewrite length_insert in Hlen.
    split_and!; try done.
    intros b bucket Hb. destruct (Hall b bucket Hb) as [->|[Hb1 Hne]];
      [by left|].
    destruct (decide (b = bucket_of m n.2.1)) as [->|Hbne].
    + rewrite list_lookup_insert_eq in Hb1 by (by eapply lookup_lt_Some).
      left. by simplify_eq.
    + rewrite list_lookup_insert_ne in Hb1 by done. right. split; [done|].
      intros n' [->|Hn']%elem_of_cons; [done|].
      specialize (Hne n' Hn'). unfold bucket_of in *. simpl in *.
      by rewrite length_insert in Hne.
Qed.

Lemma clear_spec m :
  Inv m →
  ∃ m', clear m = Some m' ∧ Inv m' ∧
    elements_ m' = [] ∧ size_ m' = 0 ∧ hash_ m' = hash_ m ∧
    heap_ m' = heap_ m ∧
    table_ m' = replicate (length (table_ m)) [].
Proof.
  intros HI. pose proof (inv_buckets m HI) as Hpos.
  destruct (clear_loop (elements_ m) m Hpos)
    as (m1 & Hfor & Hh & Hel & Hsz & Hhp & Hlen & Hall).
  assert (table_ m1 = replicate (length (table_ m)) []) as Ht.
  { rewrite <-Hlen. apply all_nil_replicate. intros b bucket Hb.
    destruct (Hall b bucket Hb) as [->|[Hb0 Hne]]; [done|].
    destruct bucket as [|x bucket]; [done|exfalso].
    destruct (indexes_bucket _ _ _ _ _ x (inv_table m HI) Hb0)
      as (n & Hin & Hn); [by left|].
    by eapply Hne; [eapply elem_of_links_node|]. }
  exists (MkMap (hash_ m1) [] (table_ m1) 0 (heap_ m1)).
  unfold clear. rewrite Hfor. simpl. split_and!; try done.
  split; simpl; try done.
  - apply NoDup_nil_2.
  - by intros a ?%elem_of_nil.
  - apply NoDup_nil_2.
  - by rewrite Hlen.
  - rewrite Ht. apply indexes_nil.
Qed.
End clear_facts.

Section compound_facts.
Context {KeyType ValueType : Type} `{EqDecision KeyType}.
Implicit Types (m : @UnorderedMap KeyType ValueType)
  (n : node KeyType ValueType) (x : iterator) (key : KeyType)
  (ps : list (KeyType * ValueType)) (d : ValueType).

Lemma subscript_present d m a key v :
  Inv m → (a, (key, v)) ∈ elements_ m →
  subscript d m key = Some (m, at_node a).
Proof.
  intros HI Hin.
  destruct (elem_of_links_exists before_begin _ _ Hin) as [x Hx].
  destruct (locate_found m x _ HI Hx) as (bucket & i & Hb & Hf & Hi).
  unfold subscript. rewrite umod_bucket by done. simpl in *.
  rewrite Hf. simpl. rewrite Hb. simpl. rewrite Hi.
  apply (links_resolve _ _ _ (inv_addrs m HI)) in Hx as [-> Hd].
  simpl in *. by rewrite Hd.
Qed.

Lemma subscript_absent d m key :
  Inv m → key ∉ keys m →
  ∃ m', insert m (key, d) = Some m' ∧
    subscript d m key = Some (m', at_node (heap_ m)) ∧
    fl.deref (elements_ m') (at_node (heap_ m)) = Some (key, d).
Proof.
  intros HI Hkey.
  destruct (insert_absent m (key, d) HI Hkey)
    as (m' & Hins & HI' & Hel & _).
  destruct (locate_absent m key HI Hkey) as (bucket & Hb & Hf).
  assert (fl.deref (elements_ m') (at_node (heap_ m)) = Some (key, d)) as Hd.
  { pose proof (inv_addrs m' HI') as Hnd. rewrite Hel in Hnd |- *.
    by apply (deref_mid [] (heap_ m, (key, d))). }
  exists m'. split_and!; [done| |done].
  unfold subscript. rewrite umod_bucket by done. simpl.
  rewrite Hf. simpl. rewrite Hb. simpl.
  rewrite lookup_ge_None_2 by done. rewrite Hins. simpl.
  unfold begin. rewrite Hel. simpl. rewrite <-Hel, Hd. done.
Qed.

Lemma insert_load_factor m p m' :
  Inv m → size_ m ≤ length (table_ m) → insert m p = Some m' →
  size_ m' ≤ length (table_ m').
Proof.
  intros HI Hload Hins. destruct (decide (p.1 ∈ keys m)) as [Hin|Hni].
  - rewrite insert_present in Hins by done. by simplify_eq.
  - destruct (insert_absent m p HI Hni) as (m'' & Hins' & _ & _ & _ & Hsz & _ & Hlen).
    pose proof (inv_buckets m HI).
    simplify_eq. rewrite Hsz, Hlen. case_decide; lia.
Qed.

(** Inserting pairs with new, pairwise distinct keys one after the other
    puts them in front of the list, the last one first. *)
Lemma for_each_insert_spec ps : ∀ m,
  Inv m → size_ m ≤ length (table_ m) →
  NoDup ps.*1 → (∀ key, key ∈ ps.*1 → key ∉ keys m) →
  ∃ m', for_each insert ps m = Some m' ∧ Inv m' ∧
    contents m' = reverse ps ++ contents m ∧ hash_ m' = hash_ m ∧
    size_ m' = length ps + size_ m ∧ size_ m' ≤ length (table_ m').
Proof.
  induction ps as [|p ps IH]; intros m HI Hload Hnd Hfresh.
  - by exists m.
  - apply NoDup_cons in Hnd as [Hp Hnd].
    destruct (insert_absent m p HI) as (m1 & Hins & HI1 & Hel & Hh & Hsz & _).
    { apply Hfresh. by left. }
    destruct (IH m1 HI1 (insert_load_factor m p m1 HI Hload Hins) Hnd)
      as (m' & Hfor & HI' & Hc & Hh' & Hsz' & Hload').
    { intros key Hkey. unfold keys, contents. rewrite Hel. simpl.
      intros [->|Hin]%elem_of_cons; [done|].
      revert Hin. apply Hfresh. by right. }
    exists m'. rewrite for_each_cons, Hins. simpl.
    split_and!; try done; [|congruence|lia].
    rewrite Hc. unfold contents at 1. rewrite Hel. simpl.
    by rewrite reverse_cons, <-app_assoc.
Qed.

Lemma copy_from_spec (this other : @UnorderedMap KeyType ValueType) :
  Inv this → Inv other →
  ∃ m', copy_from this other = Some m' ∧ Inv m' ∧
    contents m' = reverse (contents other) ∧ hash_ m' = hash_ this ∧
    size_ m' = size_ other ∧ size_ m' ≤ length (table_ m').
Proof.
  intros HI HO.
  destruct (clear_spec this HI) as (m1 & Hcl & HI1 & Hel & Hsz & Hh & _).
  destruct (for_each_insert_spec (contents other) m1 HI1)
    as (m' & Hfor & HI' & Hc & Hh' & Hsz' & Hload).
  { rewrite Hsz. lia. }
  { apply HO. }
  { intros key _. unfold keys, contents. rewrite Hel.
    by intros ?%elem_of_nil. }
  exists m'. unfold copy_from. rewrite Hcl. simpl.
  split_and!; try done; [|congruence|].
  - rewrite Hc. unfold contents at 2. by rewrite Hel, app_nil_r.
  - rewrite Hsz', Hsz, (inv_size other HO). unfold contents.
    rewrite length_fmap. lia.
Qed.

Lemma Inv_new (h : KeyType → nat) : Inv (ValueType:=ValueType) (new h).
Proof.
  split; simpl.
  - apply NoDup_nil_2.
  - by intros a ?%elem_of_nil.
  - apply NoDup_nil_2.
  - done.
  - lia.
  - apply (indexes_nil _ 1).
Qed.

Lemma elem_of_keys_split m key :
  key ∈ keys m → ∃ l1 a v l2, elements_ m = l1 ++ (a, (key, v)) :: l2.
Proof.
  intros (a & v & (l1 & l2 & ?)%list_elem_of_split)%elem_of_keys.
  by exists l1, a, v, l2.
Qed.

(** Every reachable state satisfies the invariant and respects the
    maximal load factor. *)
Lemma reachable_Inv d m :
  reachable d m → Inv m ∧ size_ m ≤ length (table_ m).
Proof.
  induction 1 as [h|m p m' _ [HI Hload] Hins|m key m' _ [HI Hload] Her
                 |m key m' r _ [HI Hload] Hsub|m m' _ [HI Hload] Hcl
                 |m other m' _ [HI Hload] _ [HO _] Hcp].
  - split; [apply Inv_new|simpl; lia].
  - split; [|by eapply insert_load_factor].
    destruct (decide (p.1 ∈ keys m)) as [Hin|Hni].
    + rewrite insert_present in Hins by done. by simplify_eq.
    + destruct (insert_absent m p HI Hni) as (? & ? & ? & _). by simplify_eq.
  - destruct (decide (key ∈ keys m)) as [Hin|Hni].
    + destruct (elem_of_keys_split m key Hin) as (l1 & a & v & l2 & Hel).
      destruct (erase_present m l1 (a, (key, v)) l2 HI Hel)
        as (m'' & Her' & ? & _ & _ & Hsz & _ & Hlen).
      simpl in *. simplify_eq. split; [done|]. rewrite Hsz, Hlen. lia.
    + rewrite erase_absent in Her by done. by simplify_eq.
  - destruct (decide (key ∈ keys m)) as [Hin|Hni].
    + apply elem_of_keys in Hin as (a & v & Hin).
      rewrite (subscript_present d m a key v) in Hsub by done.
      by simplify_eq.
    + destruct (subscript_absent d m key HI Hni) as (m'' & Hins & Hsub' & _).
      simplify_eq. split; [|by eapply insert_load_factor].
      destruct (insert_absent m (key, d) HI Hni) as (? & ? & ? & _).
      by simplify_eq.
  - destruct (clear_spec m HI) as (m'' & ? & ? & _ & Hsz & _). simplify_eq.
    split; [done|]. rewrite Hsz. lia.
  - destruct (copy_from_spec m other HI HO) as (m'' & ? & ? & _ & _ & _ & ?).
    by simplify_eq.
Qed.
End compound_facts.

(** * The documented properties *)
Section claims.
Context {KeyType ValueType : Type} `{EqDecision KeyType}.
Context (d : ValueType).
Implicit Types (m : @UnorderedMap KeyType ValueType)
  (n : node KeyType ValueType) (x : iterator) (key : KeyType)
  (ps : list (KeyType * ValueType)).

Lemma NoDup_table_entries m : Inv m → NoDup (table_entries (table_ m)).
Proof.
  intros HI. rewrite (inv_table m HI).
  apply (NoDup_fmap_1 snd). rewrite <-list_fmap_compose.
  apply NoDup_links_fst, HI.
Qed.

Lemma NoDup_bucket_from b0 (t : list (list iterator)) b bucket :
  NoDup (table_entries_from b0 t) → t !! b = Some bucket → NoDup bucket.
Proof.
  revert b0 b. induction t as [|bucket0 t IH]; intros b0 [|b] Hnd Hb;
    simplify_eq/=; apply NoDup_app in Hnd as (Hnd1 & _ & Hnd2).
  - by apply NoDup_fmap_1 in Hnd1.
  - by eapply IH.
Qed.

Lemma NoDup_bucket m b bucket :
  Inv m → table_ m !! b = Some bucket → NoDup bucket.
Proof.
  intros HI. apply (NoDup_bucket_from 0), NoDup_table_entries, HI.
Qed.

Lemma entry_key_links m x n :
  Inv m → (x, n) ∈ fl.links before_begin (elements_ m) →
  entry_key m x = Some n.2.1.
Proof.
  intros HI [Hnext Hderef]%links_resolve; [|apply HI].
  unfold entry_key. rewrite Hnext. simpl. by rewrite Hderef.
Qed.

Lemma node_addr_inj m n n' :
  Inv m → n ∈ elements_ m → n' ∈ elements_ m → n.1 = n'.1 → n = n'.
Proof. intros HI. apply NoDup_fmap_elem_inj, HI. Qed.

(** C1. In every state reachable through insert, erase, operator[], clear
    and copy-assignment, a stored element (the node at address [a]) has
    exactly one table entry whose successor it is; that entry lies in
    bucket hash(key) mod bucketCount; the position one step after it is
    that node; and the entry of the front element is [before_begin]. *)
Theorem anchor_invariant m a key v :
  reachable d m → (a, (key, v)) ∈ elements_ m →
  ∃ bucket i x,
    table_ m !! (hash_ m key mod length (table_ m)) = Some bucket ∧
    bucket !! i = Some x ∧
    fl.next (elements_ m) x = Some (at_node a) ∧
    fl.deref (elements_ m) (at_node a) = Some (key, v) ∧
    (∀ b' bucket' i' x',
       table_ m !! b' = Some bucket' → bucket' !! i' = Some x' →
       fl.next (elements_ m) x' = Some (at_node a) →
       b' = hash_ m key mod length (table_ m) ∧ i' = i) ∧
    (begin m = at_node a → x = before_begin).
Proof.
  intros [HI _]%reachable_Inv Hin.
  destruct (elem_of_links_exists before_begin _ _ Hin) as [x Hx].
  destruct (locate_found m x _ HI Hx) as (bucket & i & Hb & _ & Hi).
  destruct (links_resolve _ _ _ (inv_addrs m HI) Hx) as [Hnext Hderef].
  exists bucket, i, x. split_and!; try done.
  - intros b' bucket' i' x' Hb' Hi' Hnext'.
    destruct (indexes_bucket _ _ _ _ _ x' (inv_table m HI) Hb')
      as (n' & Hx' & Hhome); [by eapply list_elem_of_lookup_2|].
    destruct (links_resolve _ _ _ (inv_addrs m HI) Hx') as [Hnext'' _].
    assert (n' = (a, (key, v))) as ->.
    { apply (node_addr_inj m); [done|by eapply elem_of_links_node|done|].
      simpl. congruence. }
    assert (x' = x) as ->.
    { apply (links_injective (elements_ m) _ _ (a, (key, v)));
        [apply HI|done..]. }
    simpl in *. subst b'. split; [done|].
    unfold bucket_of in *. simplify_eq.
    apply (NoDup_lookup bucket i' i x); [|done..].
    by apply (NoDup_bucket m (hash_ m key mod length (table_ m))).
  - unfold begin. destruct (elements_ m) as [|[a0 e0] r] eqn:Hel;
      [done|]. intros [= ->].
    assert ((a, e0) = (a, (key, v))) as [= ->].
    { apply (node_addr_inj m); [done|rewrite Hel; by left|by rewrite Hel|done]. }
    apply (links_injective ((a, (key, v)) :: r) _ _ (a, (key, v)));
      [rewrite <-Hel; apply HI|done|by left].
Qed.

(** C2. [ReHash] keeps the list of elements and the size; it doubles the
    number of buckets; a bucket of the old table keeps, in their order,
    exactly the entries whose element still belongs there, every entry of
    the old table is found unchanged in the bucket its element belongs to
    under the new bucket count, and the new table has no other entries. *)
Theorem rehash_relocates_anchors m :
  Inv m →
  ∃ m', ReHash m = Some m' ∧
    elements_ m' = elements_ m ∧ contents m' = contents m ∧
    size_ m' = size_ m ∧
    length (table_ m') = 2 * length (table_ m) ∧
    (∀ b bucket, table_ m !! b = Some bucket →
       table_ m' !! b
       = Some (filter (λ x, entry_home m' x = Some b) bucket)) ∧
    (∀ b bucket x, table_ m !! b = Some bucket → x ∈ bucket →
       ∃ key bucket', entry_key m x = Some key ∧
         entry_key m' x = Some key ∧
         table_ m' !! (hash_ m key mod (2 * length (table_ m)))
         = Some bucket' ∧ x ∈ bucket') ∧
    (∀ b' bucket' x, table_ m' !! b' = Some bucket' → x ∈ bucket' →
       ∃ key, entry_key m' x = Some key ∧
         b' = hash_ m key mod (2 * length (table_ m)) ∧
         ∃ bucket, table_ m !! (hash_ m key mod length (table_ m))
                   = Some bucket ∧ x ∈ bucket).
Proof.
  intros HI.
  destruct (ReHash_spec m HI)
    as (m' & Hre & Hel & Hh & Hsz & _ & Hlen & HI' & Hsub).
  assert (∀ key, bucket_of m' key = hash_ m key mod (2 * length (table_ m)))
    as Hhome by (intros key; unfold bucket_of; by rewrite Hh, Hlen).
  exists m'. split_and!; try done.
  - unfold contents. by rewrite Hel.
  - intros b bucket Hb. destruct (Hsub b bucket Hb) as (bucket' & Hb' & Hsl).
    rewrite Hb'. f_equal. apply sublist_filter_eq; [done|apply (NoDup_bucket m b bucket HI Hb)|].
    intros x. split.
    + intros Hx. split; [by eapply elem_of_sublist|].
      destruct (indexes_bucket _ _ _ _ _ x (inv_table m' HI') Hb' Hx)
        as (n & Hn & Hbn).
      unfold entry_home. rewrite (entry_key_links m' x n HI' Hn). simpl.
      by rewrite Hbn.
    + intros [Hx Hxh].
      destruct (indexes_bucket _ _ _ _ _ x (inv_table m HI) Hb Hx)
        as (n & Hn & Hbn).
      rewrite <-Hel in Hn. unfold entry_home in Hxh.
      rewrite (entry_key_links m' x n HI' Hn) in Hxh. simpl in Hxh.
      assert ((b, x) ∈ table_entries (table_ m')) as Hin.
      { apply (indexes_elem _ _ _ _ _ (inv_table m' HI')).
        exists n. split; [done|congruence]. }
      apply elem_of_table_entries in Hin as (bucket'' & ? & ?).
      by simplify_eq.
  - intros b bucket x Hb Hx.
    destruct (indexes_bucket _ _ _ _ _ x (inv_table m HI) Hb Hx)
      as (n & Hn & Hbn).
    assert ((bucket_of m' n.2.1, x) ∈ table_entries (table_ m')) as Hin.
    { apply (indexes_elem _ _ _ _ _ (inv_table m' HI')).
      exists n. split; [by rewrite Hel|done]. }
    apply elem_of_table_entries in Hin as (bucket' & Hb' & Hx').
    exists n.2.1, bucket'. rewrite <-Hhome. split_and!; try done.
    + by apply entry_key_links.
    + apply entry_key_links; [done|by rewrite Hel].
  - intros b' bucket' x Hb' Hx'.
    destruct (indexes_bucket _ _ _ _ _ x (inv_table m' HI') Hb' Hx')
      as (n & Hn & Hbn).
    exists n.2.1. rewrite <-Hhome. split_and!; [by apply entry_key_links|done|].
    rewrite Hel in Hn.
    assert ((bucket_of m n.2.1, x) ∈ table_entries (table_ m)) as Hin.
    { apply (indexes_elem _ _ _ _ _ (inv_table m HI)). by exists n. }
    by apply elem_of_table_entries in Hin.
Qed.

Lemma elem_of_contents m key v :
  (key, v) ∈ contents m ↔ ∃ a, (a, (key, v)) ∈ elements_ m.
Proof.
  unfold contents. rewrite list_elem_of_fmap. split.
  - intros ([a e] & -> & Hin). by exists a.
  - intros (a & Hin). by exists (a, (key, v)).
Qed.


(** C3. [insert] of a pair whose key is present returns the state it was
    given; so after [insert (key, v1)] into a map without [key], a second
    [insert (key, v2)] changes nothing and [at(key)] still reads [v1]. *)
Theorem insert_existing_is_noop m key :
  reachable d m →
  (∀ v, key ∈ keys m → insert m (key, v) = Some m) ∧
  (∀ v1 v2, key ∉ keys m →
     ∃ m1, insert m (key, v1) = Some m1 ∧
       insert m1 (key, v2) = Some m1 ∧ at_ m1 key = Some (inr v1)).
Proof.
  intros [HI _]%reachable_Inv. split.
  - intros v Hin. by apply insert_present.
  - intros v1 v2 Hni.
    destruct (insert_absent m (key, v1) HI Hni) as (m1 & Hins & HI1 & Hel & _).
    assert ((heap_ m, (key, v1)) ∈ elements_ m1) as Hin
      by (rewrite Hel; by left).
    exists m1. split_and!; [done| |by eapply at_found].
    apply insert_present; [done|]. apply elem_of_keys. eauto.
Qed.

Lemma find_other_erased m m' l1 n l2 key :
  Inv m → Inv m' → elements_ m = l1 ++ n :: l2 → elements_ m' = l1 ++ l2 →
  key ≠ n.2.1 →
  find m' key = find m key ∧ at_ m' key = at_ m key.
Proof.
  intros HI HI' Hel Hel' Hne.
  destruct (decide (key ∈ keys m)) as [Hin|Hni].
  - apply elem_of_keys in Hin as (a & v & Hin).
    assert ((a, (key, v)) ∈ elements_ m') as Hin'.
    { rewrite Hel in Hin. rewrite Hel'.
      apply elem_of_app in Hin as [?|[Heq|?]%elem_of_cons];
        [set_solver|subst n; by destruct Hne|set_solver]. }
    by rewrite (find_found m a key v), (find_found m' a key v),
      (at_found m a key v), (at_found m' a key v).
  - assert (key ∉ keys m') as Hni'.
    { intros (a & v & Hin)%elem_of_keys. apply Hni, elem_of_keys.
      exists a, v. rewrite Hel' in Hin. rewrite Hel. set_solver. }
    by rewrite !find_absent, !at_absent.
Qed.

(** C4. After [erase(key)], [find(key)] is [end()]; when the key was
    present its node, and nothing else, left the list, the size went down
    by one, and [find] and [at] answer as before for every other key; when
    it was absent the state is the one given. *)
Theorem erase_removes_key m key :
  reachable d m →
  ∃ m', erase m key = Some m' ∧ find m' key = Some (end_ m') ∧
    (key ∈ keys m →
       S (size m') = size m ∧
       ∃ l1 a v l2, elements_ m = l1 ++ (a, (key, v)) :: l2 ∧
                    elements_ m' = l1 ++ l2) ∧
    (key ∉ keys m → m' = m) ∧
    (∀ key', key' ≠ key →
       find m' key' = find m key' ∧ at_ m' key' = at_ m key').
Proof.
  intros [HI _]%reachable_Inv.
  destruct (decide (key ∈ keys m)) as [Hin|Hni].
  - destruct (elem_of_keys_split m key Hin) as (l1 & a & v & l2 & Hel).
    destruct (erase_present m l1 (a, (key, v)) l2 HI Hel)
      as (m' & Her & HI' & Hel' & _ & Hsz & _).
    simpl in *. exists m'.
    assert (key ∉ keys m') as Hni'.
    { pose proof (inv_keys m HI) as Hnd. unfold keys, contents in *.
      rewrite Hel in Hnd. rewrite Hel'.
      rewrite !fmap_app, !fmap_cons in Hnd. rewrite !fmap_app.
      apply NoDup_app in Hnd as (_ & Hdisj & [Hk _]%NoDup_cons). simpl in *.
      intros [Hk1|Hk2]%elem_of_app; [|done].
      apply (Hdisj key Hk1). by left. }
    split_and!; [done|by apply find_absent| |done|].
    + intros _. split; [|by exists l1, a, v, l2].
      unfold size. rewrite Hsz, (inv_size m HI), Hel, length_app. simpl. lia.
    + intros key' Hne. by eapply (find_other_erased m m' l1 (a, (key, v)) l2).
  - exists m. split_and!; try done.
    + by apply erase_absent.
    + by apply find_absent.
Qed.



Lemma walk_suffix (l2 : list (node KeyType ValueType)) : ∀ l1 fuel,
  NoDup (l1 ++ l2).*1 → length l2 ≤ fuel →
  fl.walk fuel (l1 ++ l2) (fl.begin l2) = Some l2.*2.
Proof.
  induction l2 as [|n l2 IH]; intros l1 fuel Hnd Hfuel.
  - by destruct fuel.
  - destruct fuel as [|fuel]; [simpl in Hfuel; lia|].
    assert (fl.begin (n :: l2) = at_node n.1) as -> by (by destruct n).
    simpl. rewrite deref_mid by done. simpl.
    rewrite next_mid by done. simpl.
    rewrite (app_cons_snoc l1 n l2) in Hnd |- *.
    rewrite IH; [done|done|simpl in Hfuel; lia].
Qed.

(** [begin() .. end()] visits the elements in the order of the list. *)
Lemma to_list_contents m : Inv m → to_list m = Some (contents m).
Proof.
  intros HI. unfold to_list, begin, contents.
  apply (walk_suffix (elements_ m) []); [apply HI|lia].
Qed.

(** C7. Inserting pairs with pairwise distinct keys into an empty map
    gives a map whose size is their number, in which [find] reaches every
    inserted pair, and whose traversal from [begin()] to [end()] yields
    the pairs in reverse insertion order. *)
Theorem distinct_inserts_roundtrip m ps :
  reachable d m → empty m = true → NoDup ps.*1 →
  ∃ m', for_each insert ps m = Some m' ∧
    size m' = length ps ∧
    (∀ key v, (key, v) ∈ ps →
       ∃ it, find m' key = Some it ∧ it ≠ end_ m' ∧
             fl.deref (elements_ m') it = Some (key, v)) ∧
    to_list m' = Some (reverse ps).
Proof.
  intros [HI Hload]%reachable_Inv Hempty Hnd.
  apply bool_decide_eq_true in Hempty.
  destruct (for_each_insert_spec ps m HI Hload Hnd)
    as (m' & Hfor & HI' & Hc & _ & Hsz & _).
  { intros key _. unfold keys, contents. rewrite Hempty.
    by intros ?%elem_of_nil. }
  assert (contents m' = reverse ps) as Hc'.
  { rewrite Hc. unfold contents. by rewrite Hempty, app_nil_r. }
  exists m'. split_and!; [done| | |].
  - unfold size. rewrite Hsz, (inv_size m HI), Hempty. simpl. lia.
  - intros key v Hin.
    assert ((key, v) ∈ contents m') as (a & Ha)%elem_of_contents
      by (rewrite Hc'; by apply elem_of_reverse).
    exists (at_node a). split_and!; [by eapply find_found|done|].
    destruct (elem_of_links_exists before_begin _ _ Ha) as [x Hx].
    by apply (links_resolve _ _ _ (inv_addrs m' HI')) in Hx as [_ ?].
  - by rewrite to_list_contents, Hc'.
Qed.

(** C8. After [clear()] the size is 0, [empty()] holds, [find] fails for
    every key, every bucket list is empty and the number of buckets is
    what it was. *)
Theorem clear_empties_all m :
  reachable d m →
  ∃ m', clear m = Some m' ∧ size m' = 0 ∧ empty m' = true ∧
    (∀ key, find m' key = Some (end_ m')) ∧
    (∀ bucket, bucket ∈ table_ m' → bucket = []) ∧
    length (table_ m') = length (table_ m).
Proof.
  intros [HI _]%reachable_Inv.
  destruct (clear_spec m HI) as (m' & Hcl & HI' & Hel & Hsz & _ & _ & Ht).
  exists m'. split_and!; try done.
  - unfold empty. by rewrite Hel.
  - intros key. apply find_absent; [done|]. unfold keys, contents.
    rewrite Hel. by intros ?%elem_of_nil.
  - intros bucket. rewrite Ht. by intros [? _]%elem_of_replicate.
  - by rewrite Ht, length_replicate.
Qed.



(** C10. Self-assignment [m = m] returns at once and leaves the store,
    and with it the map, as it is. *)
Theorem self_assignment_is_noop (σ : list (@UnorderedMap KeyType ValueType))
    a m :
  σ !! a = Some m → assign a a σ = Some σ ∧ σ !! a = Some m.
Proof.
  intros Ha. split; [|done]. unfold assign. rewrite Ha. simpl.
  by rewrite decide_True.
Qed.

Lemma reachable_for_each_insert ps : ∀ m m',
  reachable d m → for_each insert ps m = Some m' → reachable d m'.
Proof.
  induction ps as [|p ps IH]; intros m m' Hr Hfor; simplify_eq/=; [done|].
  destruct (insert m p) as [m1|] eqn:Hins; simplify_eq/=.
  eapply IH; [|done]. by eapply reach_insert.
Qed.
End claims.

(** * Further properties of the member functions *)
Section more_properties.
Context {KeyType ValueType : Type} `{EqDecision KeyType}.
Context (d : ValueType).
Implicit Types (m : @UnorderedMap KeyType ValueType)
  (n : node KeyType ValueType) (x it : iterator) (key : KeyType)
  (p : KeyType * ValueType) (ps : list (KeyType * ValueType)).

Lemma deref_Some_elem (l : list (node KeyType ValueType)) it e :
  fl.deref l it = Some e → ∃ a, it = at_node a ∧ (a, e) ∈ l.
Proof.
  destruct it as [|a|]; unfold fl.deref; [done| |done].
  intros Hd. exists a. split; [done|].
  induction l as [|[b e'] l IH]; simpl in *; [done|].
  case_decide; simplify_eq; [by left|right; by apply IH].
Qed.

Lemma elem_deref m a e :
  Inv m → (a, e) ∈ elements_ m →
  fl.deref (elements_ m) (at_node a) = Some e.
Proof.
  intros HI Hin.
  destruct (elem_of_links_exists before_begin _ _ Hin) as [x Hx].
  by apply (links_resolve _ _ _ (inv_addrs m HI)) in Hx as [_ ?].
Qed.

(** What [find] and [at] answer for a key depends on the nodes carrying
    that key only. *)
Lemma lookups_agree m m' key :
  Inv m → Inv m' →
  (∀ a v, (a, (key, v)) ∈ elements_ m ↔ (a, (key, v)) ∈ elements_ m') →
  find m' key = find m key ∧ at_ m' key = at_ m key.
Proof.
  intros HI HI' Hiff. destruct (decide (key ∈ keys m)) as [Hin|Hni].
  - apply elem_of_keys in Hin as (a & v & Hin).
    assert ((a, (key, v)) ∈ elements_ m') as Hin' by (by apply Hiff).
    by rewrite (find_found m a key v), (find_found m' a key v),
      (at_found m a key v), (at_found m' a key v).
  - assert (key ∉ keys m') as Hni'.
    { intros (a & v & Hin)%elem_of_keys. apply Hni, elem_of_keys.
      exists a, v. by apply Hiff. }
    by rewrite !find_absent, !at_absent.
Qed.

(** X1. In a reachable state [Find_Previous_In_Bucket], asked for a key in
    the bucket of that key, returns a position of that bucket: the one in
    front of the first entry whose element carries the key, and the last
    position of the bucket exactly when no element carries the key. *)
Theorem Find_Previous_In_Bucket_position m key :
  reachable d m →
  ∃ bucket i,
    table_ m !! (hash_ m key mod length (table_ m)) = Some bucket ∧
    Find_Previous_In_Bucket m (hash_ m key mod length (table_ m)) key
    = Some i ∧
    i ≤ length bucket ∧
    (i = length bucket ↔ key ∉ keys m) ∧
    (∀ x, bucket !! i = Some x → entry_key m x = Some key) ∧
    (∀ j x, j < i → bucket !! j = Some x → entry_key m x ≠ Some key).
Proof.
  intros [HI _]%reachable_Inv.
  destruct (Inv_bucket m key HI) as [bucket Hb]. unfold bucket_of in Hb.
  destruct (scan_bucket_spec (elements_ m) key bucket (inv_addrs m HI))
    as (i & Hs & Hlt & Hcase).
  { intros y Hy.
    destruct (indexes_bucket _ _ _ _ _ _ (inv_table m HI) Hb Hy) as (?&?&?).
    eauto. }
  assert (Find_Previous_In_Bucket m (hash_ m key mod length (table_ m)) key
          = Some i) as Hf
    by (unfold Find_Previous_In_Bucket; by rewrite Hb).
  exists bucket, i. split_and!; [done|done| | | |].
  - destruct Hcase as [->|(x & n & Hi & _)]; [done|].
    apply lookup_lt_Some in Hi. lia.
  - split.
    + intros -> (a & v & Hin)%elem_of_keys.
      destruct (elem_of_links_exists before_begin _ _ Hin) as [x Hx].
      destruct (locate_found m x _ HI Hx) as (bucket' & i' & Hb' & Hf' & Hi').
      unfold bucket_of in *. simpl in *. simplify_eq.
      apply lookup_lt_Some in Hi'. lia.
    + intros Hni.
      destruct (locate_absent m key HI Hni) as (bucket' & Hb' & Hf').
      unfold bucket_of in *. by simplify_eq.
  - intros x Hx. destruct Hcase as [->|(x' & n & Hi & Hin & <-)].
    + apply lookup_lt_Some in Hx. lia.
    + simplify_eq. by apply entry_key_links.
  - intros j x Hj Hx.
    destruct (indexes_bucket _ _ _ _ _ x (inv_table m HI) Hb)
      as (n & Hin & _); [by eapply list_elem_of_lookup_2|].
    rewrite (entry_key_links m x n HI Hin). intros [= Hk].
    by eapply Hlt.
Qed.


(** X3. In a reachable state [empty()], [size() == 0] and
    [begin() == end()] say the same. *)
Theorem empty_iff_size_zero m :
  reachable d m →
  (empty m = true ↔ size m = 0) ∧ (empty m = true ↔ begin m = end_ m).
Proof.
  intros [HI _]%reachable_Inv. unfold empty, size, begin, end_.
  rewrite (inv_size m HI), bool_decide_eq_true.
  destruct (elements_ m) as [|[a e] l]; simpl; split; split; done.
Qed.

(** X4. In a reachable state the traversal [begin() .. end()] ends; it
    visits [size()] pairs, no two of them with the same key, and a pair is
    visited exactly when [at] reads its value under its key. *)
Theorem traversal_visits_each_key_once m :
  reachable d m →
  ∃ l, to_list m = Some l ∧ length l = size m ∧ NoDup l.*1 ∧
    ∀ key v, (key, v) ∈ l ↔ at_ m key = Some (inr v).
Proof.
  intros [HI _]%reachable_Inv. exists (contents m).
  split_and!; [by apply to_list_contents| |apply HI|].
  - unfold contents, size. by rewrite length_fmap, (inv_size m HI).
  - intros key v. split.
    + intros (a & Ha)%elem_of_contents. by eapply at_found.
    + intros Hat. destruct (decide (key ∈ keys m)) as [Hin|Hni].
      * apply elem_of_keys in Hin as (a & v' & Ha).
        rewrite (at_found m a key v' HI Ha) in Hat. simplify_eq.
        apply elem_of_contents. eauto.
      * by rewrite at_absent in Hat.
Qed.

(** X5. [operator[]] on a key that is present changes nothing: it hands
    back the node [find] yields, which holds the pair of the key. *)
Theorem subscript_present_returns_existing m key :
  reachable d m → key ∈ keys m →
  ∃ it v, subscript d m key = Some (m, it) ∧ find m key = Some it ∧
    fl.deref (elements_ m) it = Some (key, v) ∧
    at_ m key = Some (inr v).
Proof.
  intros [HI _]%reachable_Inv (a & v & Ha)%elem_of_keys.
  exists (at_node a), v.
  split_and!; [by eapply subscript_present|by eapply find_found
              |by apply elem_deref|by eapply at_found].
Qed.

(** X6. [insert] leaves every node that is in the list where it is and
    with the pair it holds, also when it calls [ReHash]: iterators and
    references stay good, and [find] and [at] answer as before for every
    key but a newly inserted one.  A new pair becomes the front element. *)
Theorem insert_keeps_references m p :
  reachable d m →
  ∃ m', insert m p = Some m' ∧
    (∀ it e, fl.deref (elements_ m) it = Some e →
       fl.deref (elements_ m') it = Some e) ∧
    (∀ key, key ≠ p.1 ∨ key ∈ keys m →
       find m' key = find m key ∧ at_ m' key = at_ m key) ∧
    (p.1 ∉ keys m →
       find m' p.1 = Some (begin m') ∧
       fl.deref (elements_ m') (begin m') = Some p ∧
       at_ m' p.1 = Some (inr p.2) ∧
       contents m' = p :: contents m).
Proof.
  intros [HI _]%reachable_Inv. destruct (decide (p.1 ∈ keys m)) as [Hin|Hni].
  - exists m. split_and!; [by apply insert_present|done|done|done].
  - destruct (insert_absent m p HI Hni) as (m' & Hins & HI' & Hel & _).
    assert ((heap_ m, p) ∈ elements_ m') as Hp by (rewrite Hel; by left).
    assert (begin m' = at_node (heap_ m)) as Hbegin
      by (unfold begin; by rewrite Hel).
    exists m'. split_and!; [done| | |].
    + intros it e (a & -> & Ha)%deref_Some_elem.
      apply elem_deref; [done|]. rewrite Hel. by right.
    + intros key Hkey. assert (key ≠ p.1) as Hne by (intros ->; naive_solver).
      apply lookups_agree; [done..|]. intros a v. rewrite Hel.
      rewrite elem_of_cons. split; [by right|].
      intros [[= _ Heq]|?]; [|done]. destruct Hne. by subst p.
    + intros _. rewrite Hbegin. destruct p as [k v]. simpl in *.
      split_and!; [by eapply find_found|by apply elem_deref
                  |by eapply at_found|].
      unfold contents. by rewrite Hel.
Qed.



(** X8. [insert] of a new key followed by [erase] of that key gives back
    the list of elements, node for node, hence the size and every answer of
    [find] and [at]; the table may have grown in between and stays so. *)
Theorem insert_erase_cancel m key v :
  reachable d m → key ∉ keys m →
  ∃ m1 m2, insert m (key, v) = Some m1 ∧ erase m1 key = Some m2 ∧
    elements_ m2 = elements_ m ∧ size m2 = size m ∧
    hashFunction m2 = hashFunction m ∧
    (∀ key', find m2 key' = find m key' ∧ at_ m2 key' = at_ m key') ∧
    length (table_ m) ≤ length (table_ m2).
Proof.
  intros [HI _]%reachable_Inv Hni.
  destruct (insert_absent m (key, v) HI Hni)
    as (m1 & Hins & HI1 & Hel1 & Hh1 & Hsz1 & _ & Hlen1).
  destruct (erase_present m1 [] (heap_ m, (key, v)) (elements_ m) HI1 Hel1)
    as (m2 & Her & HI2 & Hel2 & Hh2 & Hsz2 & _ & Hlen2).
  simpl in *. exists m1, m2. split_and!; try done.
  - unfold size. by rewrite Hsz2, Hsz1.
  - unfold hashFunction. congruence.
  - intros key'. apply lookups_agree; [done..|]. by rewrite Hel2.
  - rewrite Hlen2, Hlen1. case_decide; lia.
Qed.

Lemma lookups_same_elements m m' key :
  Inv m → Inv m' → elements_ m' = elements_ m →
  find m' key = find m key ∧ at_ m' key = at_ m key.
Proof. intros HI HI' Hel. apply lookups_agree; [done..|]. by rewrite Hel. Qed.

(** X9. [ReHash] is a public member; a direct call in a reachable state
    changes no answer: the traversal, the size and what [find] and [at]
    yield are as before, and the result satisfies the invariant with the
    size still within the bucket count. *)
Theorem rehash_keeps_lookups m :
  reachable d m →
  ∃ m', ReHash m = Some m' ∧
    to_list m' = to_list m ∧ size m' = size m ∧
    hashFunction m' = hashFunction m ∧
    (∀ key, find m' key = find m key ∧ at_ m' key = at_ m key) ∧
    Inv m' ∧ size_ m' ≤ length (table_ m').
Proof.
  intros [HI Hload]%reachable_Inv.
  destruct (ReHash_spec m HI) as (m' & Hre & Hel & Hh & Hsz & _ & Hlen & HI' & _).
  exists m'. split_and!; try done.
  - rewrite !to_list_contents by done. unfold contents. by rewrite Hel.
  - intros key. by apply lookups_same_elements.
  - rewrite Hsz, Hlen. lia.
Qed.

(** A run of [insert] calls on any pairs: those with a new key are put in
    front, the others are dropped; the table only ever doubles. *)
Lemma for_each_insert_general ps : ∀ m,
  Inv m → size_ m ≤ length (table_ m) →
  ∃ m', for_each insert ps m = Some m' ∧ Inv m' ∧
    size_ m' ≤ length (table_ m') ∧ hash_ m' = hash_ m ∧
    contents m' = reverse (fresh_pairs (keys m) ps) ++ contents m ∧
    ∃ j, length (table_ m') = 2 ^ j * length (table_ m).
Proof.
  induction ps as [|p ps IH]; intros m HI Hload.
  - exists m. split_and!; try done. exists 0. simpl. lia.
  - rewrite for_each_cons. simpl. destruct (decide (p.1 ∈ keys m)) as [Hin|Hni].
    + rewrite insert_present by done. simpl. by apply IH.
    + destruct (insert_absent m p HI Hni)
        as (m1 & Hins & HI1 & Hel & Hh & Hsz & _ & Hlen).
      destruct (IH m1 HI1 (insert_load_factor m p m1 HI Hload Hins))
        as (m' & Hfor & HI' & Hload' & Hh' & Hc & j & Hj).
      assert (keys m1 = p.1 :: keys m) as Hk
        by (unfold keys, contents; by rewrite Hel).
      assert (contents m1 = p :: contents m) as Hc1
        by (unfold contents; by rewrite Hel).
      exists m'. rewrite Hins. simpl. split_and!; try done; [congruence| |].
      * by rewrite Hc, Hk, Hc1, reverse_cons, <-app_assoc.
      * rewrite Hj, Hlen. case_decide; [exists (S j)|exists j];
          [rewrite Nat.pow_succ_r'; lia|done].
Qed.

Lemma fresh_pairs_first_value ps : ∀ (seen : list KeyType) key v,
  (key, v) ∈ fresh_pairs seen ps ↔ key ∉ seen ∧ first_value ps key = Some v.
Proof.
  induction ps as [|[k v0] ps IH]; intros seen key v; simpl.
  - split; [by intros ?%elem_of_nil|by intros [_ ?]].
  - destruct (decide (k ∈ seen)) as [Hin|Hni].
    + rewrite IH. destruct (decide (k = key)) as [->|]; naive_solver.
    + rewrite elem_of_cons, IH.
      destruct (decide (k = key)) as [->|Hne]; set_solver.
Qed.

Lemma elem_of_fresh_keys ps : ∀ (seen : list KeyType) key,
  key ∈ (fresh_pairs seen ps).*1 ↔ key ∉ seen ∧ key ∈ ps.*1.
Proof.
  induction ps as [|[k v0] ps IH]; intros seen key; simpl.
  - set_solver.
  - destruct (decide (k ∈ seen)) as [Hin|Hni].
    + rewrite IH. set_solver.
    + rewrite fmap_cons, !elem_of_cons, IH. simpl.
      destruct (decide (key = k)) as [->|Hne]; set_solver.
Qed.

(** X10. The two constructors that take pairs never fail, whatever the
    pairs: of several pairs with one key the first is kept and the later
    ones are dropped.  [at] reads for each key the value of its first pair,
    the size is the number of different keys, and the traversal yields the
    kept pairs, the last one first. *)
Theorem constructor_first_wins (h : KeyType → nat) ps :
  ∃ m, from_list h ps = Some m ∧
    hashFunction m = h ∧
    to_list m = Some (reverse (fresh_pairs [] ps)) ∧
    size m = length (remove_dups ps.*1) ∧
    ∀ key, at_ m key = match first_value ps key with
                       | Some v => Some (inr v)
                       | None => Some (inl out_of_range)
                       end.
Proof.
  destruct (for_each_insert_general ps (new h) (Inv_new h))
    as (m & Hfor & HI & _ & Hh & Hc & _); [simpl; lia|].
  change (keys (new h)) with (@nil KeyType) in Hc.
  change (contents (new h)) with (@nil (KeyType * ValueType)) in Hc.
  rewrite app_nil_r in Hc.
  exists m. split_and!; [done|done|by rewrite to_list_contents, Hc| |].
  - unfold size. rewrite (inv_size m HI), <-(length_fmap snd), <-(length_fmap fst).
    apply Permutation_length, NoDup_Permutation;
      [apply HI|apply NoDup_remove_dups|].
    intros key. fold (contents m). rewrite Hc, fmap_reverse, elem_of_reverse.
    rewrite elem_of_fresh_keys, elem_of_remove_dups. set_solver.
  - intros key. destruct (first_value ps key) as [v|] eqn:Hfv.
    + assert ((key, v) ∈ contents m) as (a & Ha)%elem_of_contents.
      { rewrite Hc, elem_of_reverse. apply fresh_pairs_first_value.
        split; [set_solver|done]. }
      by eapply at_found.
    + apply at_absent; [done|]. intros (a & v & Ha)%elem_of_keys.
      assert ((key, v) ∈ contents m) as Hin by (apply elem_of_contents; eauto).
      rewrite Hc, elem_of_reverse in Hin.
      apply fresh_pairs_first_value in Hin as [_ ?]. congruence.
Qed.

(** X11. No member function writes the hash function of its map, and
    [operator=] does not take over the one of its source: after [a = b],
    [a.hashFunction()] is what it was. *)
Theorem hashFunction_is_kept m :
  reachable d m →
  (∀ p, ∃ m', insert m p = Some m' ∧ hashFunction m' = hashFunction m) ∧
  (∀ key, ∃ m', erase m key = Some m' ∧ hashFunction m' = hashFunction m) ∧
  (∀ key, ∃ m' it, subscript d m key = Some (m', it) ∧
     hashFunction m' = hashFunction m) ∧
  (∃ m', clear m = Some m' ∧ hashFunction m' = hashFunction m) ∧
  (∃ m', ReHash m = Some m' ∧ hashFunction m' = hashFunction m) ∧
  (∀ other, reachable d other →
     ∃ m', copy_from m other = Some m' ∧ hashFunction m' = hashFunction m).
Proof.
  intros [HI _]%reachable_Inv. unfold hashFunction.
  assert (∀ p, ∃ m', insert m p = Some m' ∧ hash_ m' = hash_ m) as Hinsert.
  { intros p. destruct (decide (p.1 ∈ keys m)) as [Hin|Hni].
    - exists m. by rewrite insert_present.
    - destruct (insert_absent m p HI Hni) as (m' & ? & _ & _ & ? & _).
      by exists m'. }
  split_and!; [done| | | | |].
  - intros key. destruct (decide (key ∈ keys m)) as [Hin|Hni].
    + destruct (elem_of_keys_split m key Hin) as (l1 & a & v & l2 & Hel).
      destruct (erase_present m l1 (a, (key, v)) l2 HI Hel)
        as (m' & ? & _ & _ & ? & _).
      by exists m'.
    + exists m. by rewrite erase_absent.
  - intros key. destruct (decide (key ∈ keys m)) as [Hin|Hni].
    + apply elem_of_keys in Hin as (a & v & Ha).
      exists m, (at_node a). by rewrite (subscript_present d m a key v HI Ha).
    + destruct (subscript_absent d m key HI Hni) as (m' & Hins & Hsub & _).
      destruct (Hinsert (key, d)) as (m'' & ? & ?). simplify_eq.
      by exists m', (at_node (heap_ m)).
  - destruct (clear_spec m HI) as (m' & ? & _ & _ & _ & ? & _). by exists m'.
  - destruct (ReHash_spec m HI) as (m' & ? & _ & ? & _). by exists m'.
  - intros other [HO _]%reachable_Inv.
    destruct (copy_from_spec m other HI HO) as (m' & ? & _ & _ & ? & _).
    by exists m'.
Qed.

(** X12. In every reachable state the number of buckets is a power of
    two: the table starts with one bucket and is only ever doubled. *)
Theorem bucket_count_power_of_two m :
  reachable d m → ∃ k, length (table_ m) = 2 ^ k.
Proof.
  assert (∀ m p m', reachable d m → insert m p = Some m' →
            (∃ k, length (table_ m) = 2 ^ k) →
            ∃ k, length (table_ m') = 2 ^ k) as Hinsert.
  { intros m0 p m' [HI Hload]%reachable_Inv Hins [k Hk].
    destruct (for_each_insert_general [p] m0 HI Hload)
      as (m'' & Hfor & _ & _ & _ & _ & j & Hj).
    simpl in Hfor. rewrite Hins in Hfor. simpl in Hfor. simplify_eq.
    exists (j + k). by rewrite Hj, Hk, Nat.pow_add_r. }
  induction 1 as [h|m p m' Hr IH Hins|m key m' Hr IH Her
                 |m key m' r Hr IH Hsub|m m' Hr IH Hcl
                 |m other m' Hr IH _ _ Hcp].
  - by exists 0.
  - by eapply Hinsert.
  - destruct (reachable_Inv d m Hr) as [HI _].
    destruct (decide (key ∈ keys m)) as [Hin|Hni].
    + destruct (elem_of_keys_split m key Hin) as (l1 & a & v & l2 & Hel).
      destruct (erase_present m l1 (a, (key, v)) l2 HI Hel)
        as (? & ? & _ & _ & _ & _ & _ & Hlen).
      simpl in *. simplify_eq. by rewrite Hlen.
    + rewrite erase_absent in Her by done. by simplify_eq.
  - destruct (reachable_Inv d m Hr) as [HI _].
    destruct (decide (key ∈ keys m)) as [Hin|Hni].
    + apply elem_of_keys in Hin as (a & v & Ha).
      rewrite (subscript_present d m a key v HI Ha) in Hsub. by simplify_eq.
    + destruct (subscript_absent d m key HI Hni) as (m'' & Hins & Hsub' & _).
      simplify_eq. by eapply Hinsert.
  - destruct (reachable_Inv d m Hr) as [HI _].
    destruct (clear_spec m HI) as (? & ? & _ & _ & _ & _ & _ & Ht).
    simplify_eq. by rewrite Ht, length_replicate.
  - destruct (reachable_Inv d m Hr) as [HI _]. destruct IH as [k Hk].
    unfold copy_from in Hcp.
    destruct (clear_spec m HI) as (m1 & Hcl & HI1 & _ & Hsz & _ & _ & Ht).
    rewrite Hcl in Hcp. simpl in Hcp.
    destruct (for_each_insert_general (snd <$> elements_ other) m1 HI1)
      as (m'' & Hfor & _ & _ & _ & _ & j & Hj); [rewrite Hsz; lia|].
    simplify_eq. exists (j + k).
    by rewrite Hj, Ht, length_replicate, Hk, Nat.pow_add_r.
Qed.

(** X13. After [clear()] a map takes pairs like a new map with the same
    hash function: the same calls of [insert] lead to the same traversal,
    the same size and the same answers of [at]. *)
Theorem cleared_map_is_like_new m ps :
  reachable d m →
  ∃ m0 m1 m2, clear m = Some m0 ∧ for_each insert ps m0 = Some m1 ∧
    from_list (hashFunction m) ps = Some m2 ∧
    to_list m1 = to_list m2 ∧ size m1 = size m2 ∧
    ∀ key, at_ m1 key = at_ m2 key.
Proof.
  intros [HI _]%reachable_Inv.
  destruct (clear_spec m HI) as (m0 & Hcl & HI0 & Hel & Hsz & _).
  destruct (for_each_insert_general ps m0 HI0)
    as (m1 & Hfor1 & HI1 & _ & _ & Hc1 & _); [rewrite Hsz; lia|].
  destruct (for_each_insert_general ps (new (hash_ m)) (Inv_new (hash_ m)))
    as (m2 & Hfor2 & HI2 & _ & _ & Hc2 & _); [simpl; lia|].
  assert (contents m1 = contents m2) as Hc.
  { rewrite Hc1, Hc2. unfold keys, contents. by rewrite Hel. }
  exists m0, m1, m2. split_and!; [done|done|done| | |].
  - by rewrite !to_list_contents, Hc.
  - unfold size. rewrite (inv_size m1 HI1), (inv_size m2 HI2).
    rewrite <-(length_fmap snd (elements_ m1)), <-(length_fmap snd (elements_ m2)).
    fold (contents m1) (contents m2). by rewrite Hc.
  - intros key. destruct (decide (key ∈ keys m1)) as [Hin|Hni].
    + apply elem_of_keys in Hin as (a & v & Ha).
      assert ((key, v) ∈ contents m2) as (a' & Ha')%elem_of_contents
        by (rewrite <-Hc; apply elem_of_contents; eauto).
      by rewrite (at_found m1 a key v), (at_found m2 a' key v).
    + assert (key ∉ keys m2) by (unfold keys in *; by rewrite <-Hc).
      by rewrite !at_absent.
Qed.
End more_properties.

(** * The properties on the example maps *)
Section examples.
Lemma ex_map_reachable : reachable 0 ex_map.
Proof.
  apply (reachable_for_each_insert 0 ex_pairs (new ex_hash));
    [apply reach_new|reflexivity].
Qed.


Lemma ex_map_Inv : Inv ex_map.
Proof. apply (reachable_Inv 0 ex_map ex_map_reachable). Qed.

Example ex_map_built : from_list ex_hash ex_pairs = Some ex_map.
Proof. reflexivity. Qed.

Example ex_map_to_list :
  to_list ex_map = Some [(2, 3); (9, 1); (7, 20); (5, 10)].
Proof. reflexivity. Qed.

Example ex_map_rehash :
  table_ <$> ReHash ex_map
  = Some [[]; [at_node 3]; [before_begin]; []; []; [at_node 1]; [];
          [at_node 2]].
Proof. reflexivity. Qed.

Example ex_map_erase :
  (m ← erase ex_map 9; Some (elements_ m, table_ m, size_ m))
  = Some ([(3, (2, 3)); (1, (7, 20)); (0, (5, 10))],
          [[]; [at_node 1]; [before_begin]; [at_node 3]], 3).
Proof. reflexivity. Qed.

Example ex_map_at : at_ ex_map 7 = Some (inr 20) ∧
                    at_ ex_map 8 = Some (inl out_of_range).
Proof. split; reflexivity. Qed.

Example ex_assign :
  (σ ← assign 0 1 [ex_map; ex_other]; m ← σ !! 0; to_list m)
  = Some [(6, 60); (4, 40)].
Proof. reflexivity. Qed.

Lemma anchor_invariant_witness :
  reachable 0 ex_map ∧ (1, (7, 20)) ∈ elements_ ex_map ∧
  ∃ bucket i x,
    table_ ex_map !! (hash_ ex_map 7 mod length (table_ ex_map))
    = Some bucket ∧
    bucket !! i = Some x ∧
    fl.next (elements_ ex_map) x = Some (at_node 1) ∧
    fl.deref (elements_ ex_map) (at_node 1) = Some (7, 20) ∧
    (∀ b' bucket' i' x',
       table_ ex_map !! b' = Some bucket' → bucket' !! i' = Some x' →
       fl.next (elements_ ex_map) x' = Some (at_node 1) →
       b' = hash_ ex_map 7 mod length (table_ ex_map) ∧ i' = i) ∧
    (begin ex_map = at_node 1 → x = before_begin).
Proof.
  assert ((1, (7, 20)) ∈ elements_ ex_map) as Hin
    by (simpl; repeat constructor).
  split; [exact ex_map_reachable|]. split; [exact Hin|].
  exact (anchor_invariant 0 ex_map 1 7 20 ex_map_reachable Hin).
Defined.

Lemma rehash_relocates_anchors_witness :
  Inv ex_map ∧
  ∃ m', ReHash ex_map = Some m' ∧
    elements_ m' = elements_ ex_map ∧ contents m' = contents ex_map ∧
    size_ m' = size_ ex_map ∧
    length (table_ m') = 2 * length (table_ ex_map) ∧
    (∀ b bucket, table_ ex_map !! b = Some bucket →
       table_ m' !! b
       = Some (filter (λ x, entry_home m' x = Some b) bucket)) ∧
    (∀ b bucket x, table_ ex_map !! b = Some bucket → x ∈ bucket →
       ∃ key bucket', entry_key ex_map x = Some key ∧
         entry_key m' x = Some key ∧
         table_ m' !! (hash_ ex_map key mod (2 * length (table_ ex_map)))
         = Some bucket' ∧ x ∈ bucket') ∧
    (∀ b' bucket' x, table_ m' !! b' = Some bucket' → x ∈ bucket' →
       ∃ key, entry_key m' x = Some key ∧
         b' = hash_ ex_map key mod (2 * length (table_ ex_map)) ∧
         ∃ bucket, table_ ex_map
                     !! (hash_ ex_map key mod length (table_ ex_map))
                   = Some bucket ∧ x ∈ bucket).
Proof.
  split; [exact ex_map_Inv|].
  exact (rehash_relocates_anchors ex_map ex_map_Inv).
Defined.

Lemma insert_existing_is_noop_witness :
  reachable 0 ex_map ∧
  (∀ v : nat, 7 ∈ keys ex_map → insert ex_map (7, v) = Some ex_map) ∧
  (∀ v1 v2 : nat, 7 ∉ keys ex_map →
     ∃ m1, insert ex_map (7, v1) = Some m1 ∧
       insert m1 (7, v2) = Some m1 ∧ at_ m1 7 = Some (inr v1)).
Proof.
  split; [exact ex_map_reachable|].
  exact (insert_existing_is_noop 0 ex_map 7 ex_map_reachable).
Defined.

Lemma erase_removes_key_witness :
  reachable 0 ex_map ∧
  ∃ m', erase ex_map 7 = Some m' ∧ find m' 7 = Some (end_ m') ∧
    (7 ∈ keys ex_map →
       S (size m') = size ex_map ∧
       ∃ l1 a (v : nat) l2, elements_ ex_map = l1 ++ (a, (7, v)) :: l2 ∧
                    elements_ m' = l1 ++ l2) ∧
    (7 ∉ keys ex_map → m' = ex_map) ∧
    (∀ key', key' ≠ 7 →
       find m' key' = find ex_map key' ∧ at_ m' key' = at_ ex_map key').
Proof.
  split; [exact ex_map_reachable|].
  exact (erase_removes_key 0 ex_map 7 ex_map_reachable).
Defined.



Lemma distinct_inserts_roundtrip_witness :
  reachable 0 (new ex_hash) ∧ empty (new (ValueType:=nat) ex_hash) = true ∧
  NoDup ex_pairs.*1 ∧
  ∃ m', for_each insert ex_pairs (new ex_hash) = Some m' ∧
    size m' = length ex_pairs ∧
    (∀ key v, (key, v) ∈ ex_pairs →
       ∃ it, find m' key = Some it ∧ it ≠ end_ m' ∧
             fl.deref (elements_ m') it = Some (key, v)) ∧
    to_list m' = Some (reverse ex_pairs).
Proof.
  assert (NoDup ex_pairs.*1) as Hnd
    by (apply (bool_decide_unpack (NoDup ex_pairs.*1)); vm_compute; exact I).
  split; [apply reach_new|]. split; [reflexivity|]. split; [exact Hnd|].
  exact (distinct_inserts_roundtrip 0 (new ex_hash) ex_pairs
           (reach_new 0 ex_hash) eq_refl Hnd).
Defined.

Lemma clear_empties_all_witness :
  reachable 0 ex_map ∧
  ∃ m', clear ex_map = Some m' ∧ size m' = 0 ∧ empty m' = true ∧
    (∀ key, find m' key = Some (end_ m')) ∧
    (∀ bucket, bucket ∈ table_ m' → bucket = []) ∧
    length (table_ m') = length (table_ ex_map).
Proof.
  split; [exact ex_map_reachable|].
  exact (clear_empties_all 0 ex_map ex_map_reachable).
Defined.


Lemma self_assignment_is_noop_witness :
  [ex_map] !! 0 = Some ex_map ∧
  assign 0 0 [ex_map] = Some [ex_map] ∧ [ex_map] !! 0 = Some ex_map.
Proof.
  split; [reflexivity|].
  exact (self_assignment_is_noop [ex_map] 0 ex_map eq_refl).
Defined.

Example ex_constructor_duplicates :
  (m ← from_list ex_hash [(1, 2); (3, 4); (1, 5); (3, 7); (8, 8)];
   l ← to_list m; Some (l, size m, at_ m 1))
  = Some ([(8, 8); (3, 4); (1, 2)], 3, Some (inr 2)).
Proof. reflexivity. Qed.

Example ex_insert_rehash_table :
  table_ <$> insert ex_map (8, 80)
  = Some [[before_begin]; [at_node 3]; [at_node 4]; []; []; [at_node 1]; [];
          [at_node 2]].
Proof. reflexivity. Qed.

Lemma Find_Previous_In_Bucket_position_witness :
  reachable 0 ex_map ∧
  ∃ bucket i,
    table_ ex_map !! (hash_ ex_map 7 mod length (table_ ex_map))
    = Some bucket ∧
    Find_Previous_In_Bucket ex_map
      (hash_ ex_map 7 mod length (table_ ex_map)) 7 = Some i ∧
    i ≤ length bucket ∧
    (i = length bucket ↔ 7 ∉ keys ex_map) ∧
    (∀ x, bucket !! i = Some x → entry_key ex_map x = Some 7) ∧
    (∀ j x, j < i → bucket !! j = Some x → entry_key ex_map x ≠ Some 7).
Proof.
  split; [exact ex_map_reachable|].
  exact (Find_Previous_In_Bucket_position 0 ex_map 7 ex_map_reachable).
Defined.


Lemma empty_iff_size_zero_witness :
  reachable 0 ex_map ∧
  (empty ex_map = true ↔ size ex_map = 0) ∧
  (empty ex_map = true ↔ begin ex_map = end_ ex_map).
Proof.
  split; [exact ex_map_reachable|].
  exact (empty_iff_size_zero 0 ex_map ex_map_reachable).
Defined.

Lemma traversal_visits_each_key_once_witness :
  reachable 0 ex_map ∧
  ∃ l, to_list ex_map = Some l ∧ length l = size ex_map ∧ NoDup l.*1 ∧
    ∀ key v, (key, v) ∈ l ↔ at_ ex_map key = Some (inr v).
Proof.
  split; [exact ex_map_reachable|].
  exact (traversal_visits_each_key_once 0 ex_map ex_map_reachable).
Defined.

Lemma subscript_present_returns_existing_witness :
  reachable 0 ex_map ∧ 7 ∈ keys ex_map ∧
  ∃ it v, subscript 0 ex_map 7 = Some (ex_map, it) ∧
    find ex_map 7 = Some it ∧
    fl.deref (elements_ ex_map) it = Some (7, v) ∧
    at_ ex_map 7 = Some (inr v).
Proof.
  assert (7 ∈ keys ex_map) as Hin
    by (apply (bool_decide_unpack (7 ∈ keys ex_map)); vm_compute; exact I).
  split; [exact ex_map_reachable|]. split; [exact Hin|].
  exact (subscript_present_returns_existing 0 ex_map 7 ex_map_reachable Hin).
Defined.

Lemma insert_keeps_references_witness :
  reachable 0 ex_map ∧
  ∃ m', insert ex_map (8, 80) = Some m' ∧
    (∀ it e, fl.deref (elements_ ex_map) it = Some e →
       fl.deref (elements_ m') it = Some e) ∧
    (∀ key, key ≠ 8 ∨ key ∈ keys ex_map →
       find m' key = find ex_map key ∧ at_ m' key = at_ ex_map key) ∧
    (8 ∉ keys ex_map →
       find m' 8 = Some (begin m') ∧
       fl.deref (elements_ m') (begin m') = Some (8, 80) ∧
       at_ m' 8 = Some (inr 80) ∧
       contents m' = (8, 80) :: contents ex_map).
Proof.
  split; [exact ex_map_reachable|].
  exact (insert_keeps_references 0 ex_map (8, 80) ex_map_reachable).
Defined.


Lemma insert_erase_cancel_witness :
  reachable 0 ex_map ∧ 8 ∉ keys ex_map ∧
  ∃ m1 m2, insert ex_map (8, 80) = Some m1 ∧ erase m1 8 = Some m2 ∧
    elements_ m2 = elements_ ex_map ∧ size m2 = size ex_map ∧
    hashFunction m2 = hashFunction ex_map ∧
    (∀ key', find m2 key' = find ex_map key' ∧
             at_ m2 key' = at_ ex_map key') ∧
    length (table_ ex_map) ≤ length (table_ m2).
Proof.
  assert (8 ∉ keys ex_map) as Hni
    by (apply (bool_decide_unpack (8 ∉ keys ex_map)); vm_compute; exact I).
  split; [exact ex_map_reachable|]. split; [exact Hni|].
  exact (insert_erase_cancel 0 ex_map 8 80 ex_map_reachable Hni).
Defined.

Lemma rehash_keeps_lookups_witness :
  reachable 0 ex_map ∧
  ∃ m', ReHash ex_map = Some m' ∧
    to_list m' = to_list ex_map ∧ size m' = size ex_map ∧
    hashFunction m' = hashFunction ex_map ∧
    (∀ key, find m' key = find ex_map key ∧ at_ m' key = at_ ex_map key) ∧
    Inv m' ∧ size_ m' ≤ length (table_ m').
Proof.
  split; [exact ex_map_reachable|].
  exact (rehash_keeps_lookups 0 ex_map ex_map_reachable).
Defined.

Lemma hashFunction_is_kept_witness :
  reachable 0 ex_map ∧
  (∀ p, ∃ m', insert ex_map p = Some m' ∧
     hashFunction m' = hashFunction ex_map) ∧
  (∀ key, ∃ m', erase ex_map key = Some m' ∧
     hashFunction m' = hashFunction ex_map) ∧
  (∀ key, ∃ m' it, subscript 0 ex_map key = Some (m', it) ∧
     hashFunction m' = hashFunction ex_map) ∧
  (∃ m', clear ex_map = Some m' ∧ hashFunction m' = hashFunction ex_map) ∧
  (∃ m', ReHash ex_map = Some m' ∧ hashFunction m' = hashFunction ex_map) ∧
  (∀ other, reachable 0 other →
     ∃ m', copy_from ex_map other = Some m' ∧
       hashFunction m' = hashFunction ex_map).
Proof.
  split; [exact ex_map_reachable|].
  exact (hashFunction_is_kept 0 ex_map ex_map_reachable).
Defined.

Lemma bucket_count_power_of_two_witness :
  reachable 0 ex_map ∧ ∃ k, length (table_ ex_map) = 2 ^ k.
Proof.
  split; [exact ex_map_reachable|].
  exact (bucket_count_power_of_two 0 ex_map ex_map_reachable).
Defined.

Lemma cleared_map_is_like_new_witness :
  reachable 0 ex_map ∧
  ∃ m0 m1 m2, clear ex_map = Some m0 ∧
    for_each insert ex_pairs m0 = Some m1 ∧
    from_list (hashFunction ex_map) ex_pairs = Some m2 ∧
    to_list m1 = to_list m2 ∧ size m1 = size m2 ∧
    ∀ key, at_ m1 key = at_ m2 key.
Proof.
  split; [exact ex_map_reachable|].
  exact (cleared_map_is_like_new 0 ex_map ex_pairs ex_map_reachable).
Defined.
End examples.
